(** * gohttpserver: the static file server of [httpstaticserver.go]

    A shallow embedding of the access-control resolver ([readAccessConf],
    [canAccess], [canUpload], [canDelete]), of the search index
    ([makeIndex], [findIndex]) and of the listing handler ([hJSONList],
    [deepPath]), followed by the properties the specification states about
    them.

    Conventions.
    - Go strings are Rocq [string]s; the [strings] package is modelled on
      ASCII text (letters are folded byte-wise, white space is the ASCII
      white space of [unicode.IsSpace]).
    - A path is handled in two forms, as the source does: as text (what the
      JSON answer carries and what [filepath.HasPrefix] compares), and as
      the list of its components after [filepath.Clean] (what is handed to
      the operating system).  The file system is an oracle indexed by
      component lists relative to [s.Root].
    - The global [reCache], the log and the calls to [os.Remove] are threaded
      explicitly. *)

From Equations Require Import Equations.
From stdpp Require Import gmap strings list.
From Stdlib Require Import ZArith Lia Ascii.

Local Open Scope string_scope.
Local Open Scope list_scope.
Local Open Scope Z_scope.
Local Open Scope stdpp_scope.

(** * Data model *)

(** [os.FileInfo], as far as the server looks at it. *)
Record FileInfo := mkFileInfo {
  fi_Name : string;
  fi_Size : Z;
  fi_IsDir : bool;
  fi_ModTime : Z        (* UnixNano *)
}.

Record IndexFileItem := mkIndexFileItem {
  Path : string;
  Info : FileInfo
}.

Record HTTPStaticServer := mkServer {
  Root : string;
  s_Upload : bool;
  s_Delete : bool;
  indexes : list IndexFileItem
}.

Record AccessTable := mkAccessTable {
  Regex : string;
  Allow : bool
}.

Record UserControl := mkUserControl {
  Email : string;
  u_Upload : bool;
  u_Delete : bool
}.

Record AccessConf := mkAccessConf {
  Upload : bool;
  Delete : bool;
  Users : list UserControl;
  AccessTables : list AccessTable
}.

Record HTTPFileInfo := mkHTTPFileInfo {
  h_Name : string;
  h_Path : string;
  h_Type : string;
  h_Size : Z;
  h_ModTime : Z
}.

#[global] Instance FileInfo_eq_dec : EqDecision FileInfo.
Proof. solve_decision. Defined.
#[global] Instance IndexFileItem_eq_dec : EqDecision IndexFileItem.
Proof. solve_decision. Defined.
#[global] Instance AccessTable_eq_dec : EqDecision AccessTable.
Proof. solve_decision. Defined.
#[global] Instance UserControl_eq_dec : EqDecision UserControl.
Proof. solve_decision. Defined.
#[global] Instance AccessConf_eq_dec : EqDecision AccessConf.
Proof. solve_decision. Defined.

(** * Paths ([path/filepath], Unix flavour) *)

(** The components of a cleaned path, from the outermost one. *)
Definition CleanPath := list string.

(** [strings.Split(s, "/")]. *)
Fixpoint splitSlash (s : string) : list string :=
  match s with
  | EmptyString => [EmptyString]
  | String c s' =>
      if Ascii.eqb c "/"%char then EmptyString :: splitSlash s'
      else match splitSlash s' with
           | h :: t => String c h :: t
           | [] => [String c EmptyString]
           end
  end.

(** One component of the lexical clean-up of [filepath.Clean]; [stack] holds
    the components kept so far, innermost first.  Empty and [.] components
    disappear, [..] removes the component before it, is dropped at the top
    of a rooted path and is kept at the front of a relative one. *)
Definition cleanStep (rooted : bool) (stack : list string) (c : string)
  : list string :=
  if decide (c = "" ∨ c = ".") then stack
  else if decide (c = "..") then
    match stack with
    | top :: rest => if decide (top = "..") then c :: stack else rest
    | [] => if rooted then [] else [c]
    end
  else c :: stack.

Definition cleanComps (rooted : bool) (cs : list string) : CleanPath :=
  rev (fold_left (cleanStep rooted) cs []).

Definition isRooted (s : string) : bool := String.prefix "/" s.

(** [filepath.Clean], giving the components of the result. *)
Definition Clean (s : string) : CleanPath :=
  cleanComps (isRooted s) (splitSlash s).

Definition showPath (rooted : bool) (p : CleanPath) : string :=
  if rooted then "/" +:+ String.concat "/" p
  else match p with [] => "." | _ => String.concat "/" p end.

(** [filepath.Clean] as text. *)
Definition CleanStr (s : string) : string := showPath (isRooted s) (Clean s).

(** [filepath.Join] of two elements: empty elements are ignored, the rest is
    joined with a slash and cleaned. *)
Definition Join (a b : string) : string :=
  if decide (a = "") then (if decide (b = "") then "" else CleanStr b)
  else if decide (b = "") then CleanStr a
  else CleanStr (a +:+ "/" +:+ b).

(** [filepath.Dir]: everything up to the last slash, cleaned. *)
Definition DirStr (s : string) : string :=
  match removelast (splitSlash s) with
  | [] => CleanStr ""
  | front => CleanStr (String.concat "/" front +:+ "/")
  end.

Fixpoint stripCommon (b t : list string) : list string * list string :=
  match b, t with
  | x :: b', y :: t' => if decide (x = y) then stripCommon b' t' else (b, t)
  | _, _ => (b, t)
  end.

(** [filepath.Rel]; [None] is its error. *)
Definition Rel (basepath targpath : string) : option string :=
  if decide (CleanStr basepath = CleanStr targpath) then Some "."
  else if negb (Bool.eqb (isRooted basepath) (isRooted targpath)) then None
  else
    let '(b, t) := stripCommon (Clean basepath) (Clean targpath) in
    match b with
    | ".." :: _ => None
    | _ => Some (String.concat "/" (map (λ _, "..") b ++ t))
    end.

(** [filepath.ToSlash] is the identity where the separator is a slash. *)
Definition ToSlash (s : string) : string := s.

(** [filepath.Dir] on the components of a cleaned request path. *)
Definition Dir (p : CleanPath) : CleanPath := removelast p.

(** [filepath.Join(s.Root, requestPath)] is named by the components below
    the root; leading [..] components lead above it.  [fsDir] is
    [filepath.Dir] of such a name: above the root it climbs one more
    directory. *)
Definition fsDir (p : CleanPath) : CleanPath :=
  if forallb (String.eqb "..") p then p ++ [".."] else removelast p.

(** [filepath.Join(dir, name)] below the root, for a plain or slashed name. *)
Definition fsJoin (dir : CleanPath) (name : string) : CleanPath :=
  cleanComps false (dir ++ splitSlash name).

(** * The operating system, as the server sees it *)

Inductive OsError := ENOENT | ENOTDIR | EISDIR | EACCES | EIO.

Definition IsNotExist (e : OsError) : bool :=
  match e with ENOENT => true | _ => false end.

(** What [yaml.Unmarshal(data, &ac)] finds in the bytes of a sidecar file.
    The decoder first parses the whole document; on a syntax error nothing is
    decoded.  Otherwise every key it can decode is written to its field of
    [ac] (a sequence replaces the slice it is decoded into), keys that are
    missing leave their field alone, and values of the wrong type are
    reported together, after decoding went on to the end of the document, as
    one [*yaml.TypeError]: [y_typeErrors]. *)
Inductive YamlDoc :=
| YamlSyntaxError
| YamlDecoded (y_upload y_delete : option bool)
              (y_users : option (list UserControl))
              (y_accessTables : option (list AccessTable))
              (y_typeErrors : bool).

(** No bytes at all: nothing to decode, no error. *)
Definition emptyDoc : YamlDoc := YamlDecoded None None None None false.

Definition Unmarshal (data : YamlDoc) (ac : AccessConf) : AccessConf * bool :=
  match data with
  | YamlSyntaxError => (ac, true)
  | YamlDecoded u d us ts e =>
      ({| Upload := default (Upload ac) u;
          Delete := default (Delete ac) d;
          Users := default (Users ac) us;
          AccessTables := default (AccessTables ac) ts |}, e)
  end.

Record FileSystem := mkFileSystem {
  (** [isFile]: [os.Stat] succeeds on a regular file *)
  fsIsFile : CleanPath → bool;
  (** [ioutil.ReadFile]: the data read and the error *)
  fsReadFile : CleanPath → YamlDoc * option OsError;
  (** [ioutil.ReadDir]: the entries, sorted by name, or an error *)
  fsReadDir : CleanPath → OsError + list FileInfo
}.

Inductive LogLine :=
| LogErrRead (cfgFile : CleanPath) (err : OsError) (* "Err read .ghs.yml: %v" *)
| LogErrFormat (cfgFile : CleanPath)               (* "Err format .ghs.yml: %v" *)
| LogRel (requestPath path : string)               (* log.Println(requestPath, path, err) *)
| LogVisit (path : CleanPath).                     (* "WARN: Visit path: %s error: %v" *)

(** * PathAuthorizer *)

Definition defaultAccessConf (s : HTTPStaticServer) : AccessConf :=
  {| Upload := s_Upload s; Delete := false; Users := []; AccessTables := [] |}.

(** The sidecar file consulted for [requestPath]: the one of the directory
    itself, or of the containing directory when the path names a file. *)
Definition cfgFileOf (fs : FileSystem) (requestPath : CleanPath) : CleanPath :=
  let relPath := requestPath in
  let relPath := if fsIsFile fs relPath then fsDir relPath else relPath in
  relPath ++ [".ghs.yml"].

(** The second half of [readAccessConf]: read the sidecar and decode it over
    the policy resolved so far. *)
Definition readSidecar (fs : FileSystem) (requestPath : CleanPath)
    (ac : AccessConf) (log : list LogLine) : AccessConf * list LogLine :=
  let cfgFile := cfgFileOf fs requestPath in
  let '(data, err) := fsReadFile fs cfgFile in
  let decode log :=
    let '(ac, err) := Unmarshal data ac in
    (ac, if err then log ++ [LogErrFormat cfgFile] else log) in
  match err with
  | Some e =>
      if IsNotExist e then (ac, log)
      else decode (log ++ [LogErrRead cfgFile e])
  | None => decode log
  end.

(** [readAccessConf] on the components of the cleaned request path: [/], the
    empty path and [.] all clean to the empty list of components. *)
Equations? readAccessConfAt (s : HTTPStaticServer) (fs : FileSystem)
    (requestPath : CleanPath) : AccessConf * list LogLine
    by wf (length requestPath) lt :=
  readAccessConfAt s fs requestPath with decide (requestPath = []) := {
    | left _ =>
        readSidecar fs requestPath (defaultAccessConf s) []
    | right _ =>
        let parentPath := Dir requestPath in
        let '(ac, log) := readAccessConfAt s fs parentPath in
        readSidecar fs requestPath ac log }.
Proof.
  subst parentPath. unfold Dir.
  destruct requestPath as [|c p _] using rev_ind; [done|].
  rewrite removelast_last, length_app. simpl. lia.
Qed.

Definition readAccessConf (s : HTTPStaticServer) (fs : FileSystem)
    (requestPath : string) : AccessConf * list LogLine :=
  readAccessConfAt s fs (Clean requestPath).

(** ** Regular expressions

    The [regexp] package is an interface here: [Compile] gives a compiled
    pattern or, on an error, the nil pointer ([None]); [MatchString] reports
    whether the text contains a match. *)
Class RegexpEngine := {
  Regexp : Type;
  Compile : string → option Regexp;
  MatchString : Regexp → string → bool
}.

Section PathAuthorizer.
Context `{RegexpEngine}.

(** The process-wide [reCache], with the patterns handed to
    [regexp.Compile] so far, in order. *)
Record ReCache := mkReCache {
  reCache : gmap string (option Regexp);
  compiled : list string
}.

(** [make(map[string]*regexp.Regexp)] *)
Definition reCache0 : ReCache := {| reCache := ∅; compiled := [] |}.

Definition isNil {A} (p : option A) : bool :=
  match p with None => true | Some _ => false end.

(** [pattern.MatchString(fileName)] through the pointer: calling it on the
    nil pointer is a run-time panic, [None]. *)
Definition MatchStringPtr (pattern : option Regexp) (fileName : string)
  : option bool :=
  match pattern with
  | None => None
  | Some re => Some (MatchString re fileName)
  end.

(** [pattern, ok := reCache[regex]], compiling and storing on a miss. *)
Definition cachedPattern (regex : string) (rc : ReCache)
  : option Regexp * ReCache :=
  match reCache rc !! regex with
  | Some pattern => (pattern, rc)
  | None =>
      let pattern := Compile regex in
      (pattern, {| reCache := <[regex := pattern]> (reCache rc);
                   compiled := compiled rc ++ [regex] |})
  end.

(** The loop of [canAccess]; the result [None] is a panic. *)
Fixpoint canAccessLoop (tables : list AccessTable) (fileName : string)
    (rc : ReCache) : option bool * ReCache :=
  match tables with
  | [] => (Some true, rc)
  | table :: tables' =>
      let '(pattern, rc) := cachedPattern (Regex table) rc in
      (* skip wrong format regex *)
      if isNil pattern then canAccessLoop tables' fileName rc
      else
        match MatchStringPtr pattern fileName with
        | None => (None, rc)
        | Some true => (Some (Allow table), rc)
        | Some false => canAccessLoop tables' fileName rc
        end
  end.

Definition canAccess (c : AccessConf) (fileName : string) (rc : ReCache)
  : option bool * ReCache :=
  canAccessLoop (AccessTables c) fileName rc.

(** A run of the process: [canAccess] called again and again on the one
    cache. *)
Fixpoint canAccessCalls (calls : list (AccessConf * string)) (rc : ReCache)
  : list (option bool) * ReCache :=
  match calls with
  | [] => ([], rc)
  | (c, fileName) :: calls' =>
      let '(r, rc) := canAccess c fileName rc in
      let '(rs, rc) := canAccessCalls calls' rc in
      (r :: rs, rc)
  end.

(** ** Identity *)

Record UserInfo := mkUserInfo { ui_Email : string }.

(** What [store.Get(r, defaultSessionName)] and [session.Values["user"]]
    give for a request. *)
Inductive Request :=
| SessionError                      (* [store.Get] fails *)
| NoUser                            (* no ["user"] value in the session *)
| LoggedIn (userInfo : UserInfo).

Fixpoint firstUser (users : list UserControl) (email : string)
  : option UserControl :=
  match users with
  | [] => None
  | rule :: users' =>
      if decide (Email rule = email) then Some rule
      else firstUser users' email
  end.

Definition canDelete (c : AccessConf) (r : Request) : bool :=
  match r with
  | SessionError => Delete c
  | NoUser => Delete c
  | LoggedIn userInfo =>
      match firstUser (Users c) (ui_Email userInfo) with
      | Some rule => u_Delete rule
      | None => Delete c
      end
  end.

Definition canUpload (c : AccessConf) (r : Request) : bool :=
  match r with
  | SessionError => Upload c
  | NoUser => Upload c
  | LoggedIn userInfo =>
      match firstUser (Users c) (ui_Email userInfo) with
      | Some rule => u_Upload rule
      | None => Upload c
      end
  end.

(** ** The DELETE handler *)

Record Response := mkResponse { status : Z; body : string }.

Definition StatusForbidden : Z := 403.

Definition errorText (e : OsError) : string :=
  match e with
  | ENOENT => "no such file or directory"
  | ENOTDIR => "not a directory"
  | EISDIR => "is a directory"
  | EACCES => "permission denied"
  | EIO => "input/output error"
  end.

(** [filepath.Join(s.Root, path)] for the raw path of a request. *)
Definition underRoot (path : string) : CleanPath :=
  cleanComps false (splitSlash path).

(** [hDelete]: the answer and the paths handed to [os.Remove];
    [remove] is the outcome of [os.Remove].  The line that prints the
    policy to the log is not kept. *)
Definition hDelete (s : HTTPStaticServer) (fs : FileSystem)
    (remove : CleanPath → option OsError) (path : string) (req : Request)
  : Response * list CleanPath :=
  let '(auth, _) := readAccessConf s fs path in
  if negb (canDelete auth req) then
    ({| status := StatusForbidden; body := "Delete forbidden" |}, [])
  else
    let target := underRoot path in
    match remove target with
    | Some err => ({| status := 500; body := errorText err |}, [target])
    | None => ({| status := 200; body := "Success" |}, [target])
    end.
End PathAuthorizer.

(** * SearchIndex *)

(** ** The [strings] package, on ASCII text *)

(** [unicode.IsSpace] below U+0080: tab, line feed, vertical tab, form feed,
    carriage return and space. *)
Definition isSpace (c : ascii) : bool :=
  let n := nat_of_ascii c in
  ((9 <=? n) && (n <=? 13) || (n =? 32))%nat.

(** [strings.Fields]: the maximal runs of characters that are not white
    space. *)
Fixpoint Fields (s : string) : list string :=
  match s with
  | EmptyString => []
  | String c s' =>
      if isSpace c then Fields s'
      else
        match s' with
        | EmptyString => [String c EmptyString]
        | String d _ =>
            if isSpace d then String c EmptyString :: Fields s'
            else match Fields s' with
                 | h :: t => String c h :: t
                 | [] => [String c EmptyString]
                 end
        end
  end.

Definition HasPrefix (s prefix : string) : bool := String.prefix prefix s.

Definition toLowerChar (c : ascii) : ascii :=
  let n := nat_of_ascii c in
  if ((65 <=? n) && (n <=? 90))%nat then ascii_of_nat (n + 32) else c.

(** [strings.ToLower] *)
Fixpoint ToLower (s : string) : string :=
  match s with
  | EmptyString => EmptyString
  | String c s' => String (toLowerChar c) (ToLower s')
  end.

(** [strings.Contains] *)
Fixpoint Contains (s substr : string) : bool :=
  HasPrefix s substr ||
  match s with
  | EmptyString => false
  | String _ s' => Contains s' substr
  end.

(** [keyword[1:]] *)
Definition dropFirst (s : string) : string :=
  match s with
  | EmptyString => EmptyString
  | String _ s' => s'
  end.

(** ** [findIndex] *)

(** The inner loop over the keywords; [ok] is the variable of the source and
    the result is its value when the loop is left. *)
Fixpoint keywordLoop (itemPath : string) (keywords : list string) (ok : bool)
  : bool :=
  match keywords with
  | [] => ok
  | keyword :: keywords' =>
      let needContains := true in
      let '(needContains, keyword) :=
        if HasPrefix keyword "-" then (false, dropFirst keyword)
        else (needContains, keyword) in
      if decide (keyword = "") then keywordLoop itemPath keywords' ok
      else
        let ok := Bool.eqb needContains
                    (Contains (ToLower itemPath) (ToLower keyword)) in
        if negb ok then ok
        else keywordLoop itemPath keywords' ok
  end.

Fixpoint findIndexLoop (items : list IndexFileItem) (text : string)
    (ret : list IndexFileItem) : list IndexFileItem :=
  match items with
  | [] => ret
  | item :: items' =>
      let ok := true in
      (* search algorithm, space for AND *)
      let ok := keywordLoop (Path item) (Fields text) ok in
      findIndexLoop items' text (if ok then ret ++ [item] else ret)
  end.

Definition findIndex (s : HTTPStaticServer) (text : string)
  : list IndexFileItem :=
  findIndexLoop (indexes s) text [].

(** ** Search as the specification words it *)

(** A path contains a token, letter case aside. *)
Definition containsFold (path token : string) : bool :=
  Contains (ToLower path) (ToLower token).

(** One token of the query succeeds on a path: a token with a leading [-]
    asks that the rest of it is not contained, any other token asks to be
    contained; a token whose text is empty asks nothing. *)
Definition tokenSucceeds (path token : string) : bool :=
  if HasPrefix token "-" then
    let rest := dropFirst token in
    if decide (rest = "") then true else negb (containsFold path rest)
  else
    if decide (token = "") then true else containsFold path token.

(** A token as [strings.Fields] cuts them: not empty, free of white
    space. *)
Fixpoint spaceFree (s : string) : bool :=
  match s with
  | EmptyString => true
  | String c s' => negb (isSpace c) && spaceFree s'
  end.

Definition isToken (s : string) : Prop := s ≠ "" ∧ spaceFree s = true.

Definition searchSpec (snapshot : list IndexFileItem) (query : string)
  : list IndexFileItem :=
  List.filter (λ item, forallb (tokenSucceeds (Path item)) (Fields query))
    snapshot.

(** ** The tree on disk, [filepath.Walk] and [makeIndex] *)

Record Stat := mkStat { st_size : Z; st_mtime : Z }.

Local Set Warnings "-register-all".

(** What lies below a path: a file that is not a directory, with what the
    YAML decoder would find in it, or a directory with the outcome of reading
    its names (in lexical order) and of [os.Lstat] on each of them. *)
Inductive FsNode :=
| FsFile (st : Stat) (content : YamlDoc)
| FsDir (st : Stat) (names : OsError + list (string * (OsError + FsNode))).

Definition nodeIsDir (n : FsNode) : bool :=
  match n with FsFile _ _ => false | FsDir _ _ => true end.

Definition nodeStat (n : FsNode) : Stat :=
  match n with FsFile st _ => st | FsDir st _ => st end.

Definition nodeInfo (name : string) (n : FsNode) : FileInfo :=
  {| fi_Name := name; fi_Size := st_size (nodeStat n);
     fi_IsDir := nodeIsDir n; fi_ModTime := st_mtime (nodeStat n) |}.

(** The error values a [WalkFunc] returns. *)
Inductive WalkError := SkipDir | OtherError (e : OsError).

Definition isSkipDir (e : WalkError) : bool :=
  match e with SkipDir => true | OtherError _ => false end.

(** The three ways [Walk] calls its function: on an entry whose [Lstat]
    worked (error nil), on a name whose [Lstat] failed (info nil), and on a
    directory whose names could not be read. *)
Inductive Visit :=
| Visited (info : FileInfo)
| LstatFailed (err : OsError)
| ReadDirFailed (info : FileInfo) (err : OsError).

Section Walk.
Context {St : Type}.
(** The closure, with the variables it captures as state. *)
Variable walkFn : St → CleanPath → Visit → St * option WalkError.

(** [walk] of [path/filepath]: the function is called on the entry; a
    directory that was read and not skipped is then walked name by name.
    [SkipDir] from a directory ends that directory only, any other error
    ends the walk.  (Earlier releases call the function on a directory
    before its names are read, and once more when reading them fails; for a
    function that returns nil on a directory without touching its state, as
    the closure of [makeIndex] does, the walk is the same.) *)
Fixpoint walk (path : CleanPath) (name : string) (node : FsNode) (st : St)
  : St * option WalkError :=
  let info := nodeInfo name node in
  match node with
  | FsFile _ _ => walkFn st path (Visited info)
  | FsDir _ (inl err) => walkFn st path (ReadDirFailed info err)
  | FsDir _ (inr names) =>
      let '(st, err1) := walkFn st path (Visited info) in
      match err1 with
      | Some _ => (st, err1)
      | None =>
          (fix range (names : list (string * (OsError + FsNode))) (st : St)
             : St * option WalkError :=
             match names with
             | [] => (st, None)
             | (name, entry) :: names' =>
                 let filename := path ++ [name] in
                 match entry with
                 | inl err =>
                     let '(st, err) := walkFn st filename (LstatFailed err) in
                     match err with
                     | Some (OtherError e) => (st, err)
                     | _ => range names' st
                     end
                 | inr child =>
                     let '(st, err) := walk filename name child st in
                     match err with
                     | Some e =>
                         if negb (nodeIsDir child) || negb (isSkipDir e)
                         then (st, err)
                         else range names' st
                     | None => range names' st
                     end
                 end
             end) names st
      end
  end.

(** [filepath.Walk].  [skipDirIsNil] tells the releases of Go apart: the
    later ones turn a final [SkipDir] into nil, the earlier ones return
    it. *)
Definition Walk (skipDirIsNil : bool) (rootName : string)
    (root : OsError + FsNode) (st : St) : St * option WalkError :=
  let '(st, err) :=
    match root with
    | inl err => walkFn st [] (LstatFailed err)
    | inr node => walk [] rootName node st
    end in
  match err with
  | Some SkipDir => (st, if skipDirIsNil then None else err)
  | _ => (st, err)
  end.
End Walk.

(** [filepath.Rel(s.Root, path)] followed by [filepath.ToSlash], for a path
    met by the walk. *)
Definition relToRoot (path : CleanPath) : string :=
  ToSlash (showPath false path).

(** The closure of [makeIndex]; its state is the slice [indexes] and the
    log. *)
Definition makeIndexFn (st : list IndexFileItem * list LogLine)
    (path : CleanPath) (v : Visit)
  : (list IndexFileItem * list LogLine) * option WalkError :=
  let '(indexes, log) := st in
  match v with
  | LstatFailed err | ReadDirFailed _ err =>
      ((indexes, log ++ [LogVisit path]), Some SkipDir)
  | Visited info =>
      if fi_IsDir info then (st, None)
      else
        let path := relToRoot path in
        ((indexes ++ [{| Path := path; Info := info |}], log), None)
  end.

(** The last component of [s.Root], the name [os.Lstat] reports for it. *)
Definition rootName (s : HTTPStaticServer) : string :=
  List.last (Clean (Root s)) (CleanStr (Root s)).

(** [makeIndex]: the server with the new snapshot installed, the error
    returned, and the log. *)
Definition makeIndex (skipDirIsNil : bool) (s : HTTPStaticServer)
    (root : OsError + FsNode)
  : HTTPStaticServer * option WalkError * list LogLine :=
  let indexes0 : list IndexFileItem := [] in
  let '((indexes', log), err) :=
    Walk makeIndexFn skipDirIsNil (rootName s) root (indexes0, []) in
  ({| Root := Root s; s_Upload := s_Upload s; s_Delete := s_Delete s;
      indexes := indexes' |}, err, log).

(** ** The files of a tree, as the specification words the build *)

(** Only files become entries; a directory is descended into; what cannot
    be read or inspected contributes nothing. *)
Fixpoint filesUnder (path : CleanPath) (name : string) (node : FsNode)
  : list IndexFileItem :=
  match node with
  | FsFile _ _ => [{| Path := relToRoot path; Info := nodeInfo name node |}]
  | FsDir _ (inl _) => []
  | FsDir _ (inr names) =>
      (fix each (names : list (string * (OsError + FsNode))) :=
         match names with
         | [] => []
         | (name, inl _) :: names' => each names'
         | (name, inr child) :: names' =>
             filesUnder (path ++ [name]) name child ++ each names'
         end) names
  end.

(** The root of the walk cannot be opened: [os.Lstat] fails on it, or it is
    a directory whose names cannot be read. *)
Definition rootUnopenable (root : OsError + FsNode) : Prop :=
  match root with
  | inl _ => True
  | inr (FsDir _ (inl _)) => True
  | inr _ => False
  end.

(** The error [walk] hands back under the closure of [makeIndex]. *)
Definition walkResult (node : FsNode) : option WalkError :=
  match node with
  | FsDir _ (inl _) => Some SkipDir
  | _ => None
  end.

(** What one name of a directory adds to the index. *)
Definition filesOfEntry (path : CleanPath) (name : string)
    (entry : OsError + FsNode) : list IndexFileItem :=
  match entry with
  | inl _ => []
  | inr child => filesUnder (path ++ [name]) name child
  end.

(** * ListingAggregator *)

Definition maxDepth : Z := 5.

(** The loop of [deepPath], from the value [depth] of its counter. *)
Equations? deepPathLoop (fs : FileSystem) (basedir : CleanPath) (depth : Z)
    (isDir : bool) (name : string) : string
    by wf (Z.to_nat (maxDepth + 1 - depth)) lt :=
  deepPathLoop fs basedir depth isDir name
    with decide (depth <= maxDepth ∧ isDir = true) := {
    | right _ => name
    | left _ =>
        match fsReadDir fs (fsJoin basedir name) with
        | inr [finfo] =>
            if fi_IsDir finfo then
              deepPathLoop fs basedir (depth + 1) isDir
                (ToSlash (Join name (fi_Name finfo)))
            else name
        | _ => name
        end }.
Proof. lia. Qed.

Definition deepPath (fs : FileSystem) (basedir : CleanPath) (name : string)
  : string :=
  let isDir := true in
  (* loop max 5, incase of for loop not finished *)
  deepPathLoop fs basedir 0 isDir name.

(** A name extended with the names of the children descended into. *)
Definition extendName (name : string) (children : list string) : string :=
  fold_left (λ name child, ToSlash (Join name child)) children name.

Section ListingAggregator.
Context `{RegexpEngine}.

Inductive ListResult :=
| ListPanic
| ListError (r : Response)
| ListOK (files : list HTTPFileInfo) (auth : AccessConf).

(** The body of the loop over the search results: an item whose path has
    the request path as a prefix is stored under its path. *)
Definition storeMatch (requestPath : string)
    (fileInfoMap : gmap string FileInfo) (item : IndexFileItem)
  : gmap string FileInfo :=
  if HasPrefix (Path item) requestPath
  then <[Path item := Info item]> fileInfoMap
  else fileInfoMap.

(** The map filled from the search index: the matches are cut to the
    first 50, those with the request path as a prefix are stored. *)
Definition searchFileInfoMap (s : HTTPStaticServer)
    (requestPath search : string) : gmap string FileInfo :=
  let results := findIndex s search in
  let results :=
    if (50 <? length results)%nat (* max 50 *) then take 50 results
    else results in
  fold_left (storeMatch requestPath) results ∅.

(** The map filled from the entries of the directory. *)
Definition dirFileInfoMap (requestPath : string) (infos : list FileInfo)
  : gmap string FileInfo :=
  fold_left
    (λ (fileInfoMap : gmap string FileInfo) info,
       <[Join requestPath (fi_Name info) := info]> fileInfoMap)
    infos ∅.

(** The entry for one element of the map. *)
Definition fileEntry (fs : FileSystem) (localPath : CleanPath)
    (requestPath search : string) (path : string) (info : FileInfo)
  : HTTPFileInfo * list LogLine :=
  let mtime := Z.quot (fi_ModTime info) 1000000 in
  let '(name0, log) :=
    if decide (search ≠ "") then
      match Rel requestPath path with
      | Some name => (ToSlash name, [])
      | None => (ToSlash "", [LogRel requestPath path])
      end
    else (fi_Name info, []) in
  if fi_IsDir info then
    let name := deepPath fs localPath (fi_Name info) in
    ({| h_Name := name; h_Path := Join (DirStr path) name;
        h_Type := "dir"; h_Size := -1; h_ModTime := mtime |}, log)
  else
    ({| h_Name := name0; h_Path := path;
        h_Type := "file"; h_Size := fi_Size info; h_ModTime := mtime |}, log).

(** The loop that turns the map into the list [lrs]. *)
Fixpoint listLoop (fs : FileSystem) (auth : AccessConf)
    (localPath : CleanPath) (requestPath search : string)
    (entries : list (string * FileInfo)) (lrs : list HTTPFileInfo)
    (rc : ReCache) (log : list LogLine)
  : option (list HTTPFileInfo) * ReCache * list LogLine :=
  match entries with
  | [] => (Some lrs, rc, log)
  | (path, info) :: entries' =>
      let '(ok, rc) := canAccess auth (fi_Name info) rc in
      match ok with
      | None => (None, rc, log)
      | Some false =>
          listLoop fs auth localPath requestPath search entries' lrs rc log
      | Some true =>
          let '(lr, log') :=
            fileEntry fs localPath requestPath search path info in
          listLoop fs auth localPath requestPath search entries'
            (lrs ++ [lr]) rc (log ++ log')
      end
  end.

(** [hJSONList].  Go leaves the order in which a map is ranged over open;
    the order of [map_to_list] stands for it, and the statements about the
    listing speak of its length and its elements only. *)
Definition hJSONList (s : HTTPStaticServer) (fs : FileSystem)
    (requestPath search : string) (r : Request) (rc : ReCache)
  : ListResult * ReCache * list LogLine :=
  let localPath := underRoot requestPath in
  let '(auth, log) := readAccessConf s fs requestPath in
  let auth := {| Upload := canUpload auth r; Delete := Delete auth;
                 Users := Users auth; AccessTables := AccessTables auth |} in
  let auth := {| Upload := Upload auth; Delete := canDelete auth r;
                 Users := Users auth; AccessTables := AccessTables auth |} in
  let fileInfoMap : OsError + gmap string FileInfo :=
    if decide (search ≠ "") then inr (searchFileInfoMap s requestPath search)
    else
      match fsReadDir fs localPath with
      | inl err => inl err
      | inr infos => inr (dirFileInfoMap requestPath infos)
      end in
  match fileInfoMap with
  | inl err => (ListError {| status := 500; body := errorText err |}, rc, log)
  | inr fileInfoMap =>
      let '(lrs, rc, log) :=
        listLoop fs auth localPath requestPath search
          (map_to_list fileInfoMap) [] rc log in
      match lrs with
      | None => (ListPanic, rc, log)
      | Some lrs => (ListOK lrs auth, rc, log)
      end
  end.
End ListingAggregator.

(** * A concrete file system and a concrete regular-expression engine

    Both serve the examples: the oracle read off a tree, and a matcher for
    the fragment of the RE2 syntax made of literal characters, escaped
    punctuation, [.], a starred character and the anchors [^] and [$]. *)

Fixpoint lookupName (name : string) (names : list (string * (OsError + FsNode)))
  : OsError + FsNode :=
  match names with
  | [] => inl ENOENT
  | (n, entry) :: names' =>
      if decide (n = name) then entry else lookupName name names'
  end.

Fixpoint fsLookup (node : FsNode) (p : CleanPath) : OsError + FsNode :=
  match p with
  | [] => inr node
  | c :: p' =>
      match node with
      | FsFile _ _ => inl ENOTDIR
      | FsDir _ (inl err) => inl err
      | FsDir _ (inr names) =>
          match lookupName c names with
          | inl err => inl err
          | inr child => fsLookup child p'
          end
      end
  end.

(** [ioutil.ReadDir] over the names of a directory: a name that vanished is
    left out, any other failure of [Lstat] fails the whole call. *)
Fixpoint readDirInfos (names : list (string * (OsError + FsNode)))
  : OsError + list FileInfo :=
  match names with
  | [] => inr []
  | (name, inr child) :: names' =>
      match readDirInfos names' with
      | inl err => inl err
      | inr infos => inr (nodeInfo name child :: infos)
      end
  | (name, inl err) :: names' =>
      if IsNotExist err then readDirInfos names' else inl err
  end.

Definition fsOfTree (root : FsNode) : FileSystem :=
  {| fsIsFile p :=
       match fsLookup root p with inr (FsFile _ _) => true | _ => false end;
     fsReadFile p :=
       match fsLookup root p with
       | inr (FsFile _ content) => (content, None)
       | inr (FsDir _ _) => (emptyDoc, Some EISDIR)
       | inl err => (emptyDoc, Some err)
       end;
     fsReadDir p :=
       match fsLookup root p with
       | inr (FsDir _ (inr names)) => readDirInfos names
       | inr (FsDir _ (inl err)) => inl err
       | inr (FsFile _ _) => inl ENOTDIR
       | inl err => inl err
       end |}.

Module MiniRE.
Inductive Token :=
| TChar (c : ascii)     (* a literal character *)
| TAny                  (* [.] *)
| TStar                 (* [*] *)
| TBol                  (* [^] *)
| TEol.                 (* [$] *)

Definition isWordChar (c : ascii) : bool :=
  let n := nat_of_ascii c in
  ((48 <=? n) && (n <=? 57) || (65 <=? n) && (n <=? 90)
   || (97 <=? n) && (n <=? 122) || (n =? 95))%nat.

(** The characters with a meaning that this fragment leaves out. *)
Definition isOutside (c : ascii) : bool :=
  bool_decide (c ∈ ["+"; "?"; "("; ")"; "["; "]"; "{"; "}"; "|"]%char).

Fixpoint tokens (s : string) : option (list Token) :=
  match s with
  | EmptyString => Some []
  | String "\" EmptyString => None          (* trailing backslash *)
  | String "\" (String c s') =>
      if isWordChar c then None
      else cons (TChar c) <$> tokens s'
  | String c s' =>
      if isOutside c then None
      else
        let t := if Ascii.eqb c "." then TAny
                 else if Ascii.eqb c "*" then TStar
                 else if Ascii.eqb c "^" then TBol
                 else if Ascii.eqb c "$" then TEol
                 else TChar c in
        cons t <$> tokens s'
  end.

Inductive Atom := AChar (c : ascii) | AAny.

Inductive Item :=
| IOne (a : Atom)
| IStar (a : Atom)
| IBol
| IEol.

(** A star needs a character before it: a pattern that starts with a
    star, or stars a star or an anchor, is refused. *)
Fixpoint items (ts : list Token) : option (list Item) :=
  match ts with
  | [] => Some []
  | TStar :: _ => None
  | TBol :: TStar :: _ => None
  | TEol :: TStar :: _ => None
  | TBol :: ts' => cons IBol <$> items ts'
  | TEol :: ts' => cons IEol <$> items ts'
  | TChar c :: TStar :: TStar :: _ => None
  | TAny :: TStar :: TStar :: _ => None
  | TChar c :: TStar :: ts' => cons (IStar (AChar c)) <$> items ts'
  | TAny :: TStar :: ts' => cons (IStar AAny) <$> items ts'
  | TChar c :: ts' => cons (IOne (AChar c)) <$> items ts'
  | TAny :: ts' => cons (IOne AAny) <$> items ts'
  end.

Definition compile (s : string) : option (list Item) :=
  tokens s ≫= items.

(** [.] matches every character but the line feed. *)
Definition atomMatches (a : Atom) (c : ascii) : bool :=
  match a with
  | AChar d => Ascii.eqb c d
  | AAny => negb (Ascii.eqb c "010")
  end.

(** The pattern matches a prefix of [text]; [atStart] tells whether
    [text] is the whole input. *)
Fixpoint matchHere (re : list Item) : bool → string → bool :=
  match re with
  | [] => λ _ _, true
  | IBol :: re' => λ atStart text, atStart && matchHere re' atStart text
  | IEol :: re' => λ atStart text,
      bool_decide (text = "") && matchHere re' atStart text
  | IOne a :: re' => λ _ text,
      match text with
      | String c text' => atomMatches a c && matchHere re' false text'
      | EmptyString => false
      end
  | IStar a :: re' =>
      fix star (atStart : bool) (text : string) : bool :=
        matchHere re' atStart text ||
        match text with
        | String c text' => atomMatches a c && star false text'
        | EmptyString => false
        end
  end.

(** The pattern matches somewhere in [text]. *)
Fixpoint matchFrom (re : list Item) (atStart : bool) (text : string) : bool :=
  matchHere re atStart text ||
  match text with
  | String _ text' => matchFrom re false text'
  | EmptyString => false
  end.

Definition matchString (re : list Item) (text : string) : bool :=
  matchFrom re true text.

#[export] Instance engine : RegexpEngine :=
  {| Regexp := list Item; Compile := compile; MatchString := matchString |}.
End MiniRE.

(** * Vocabulary of the statements *)

(** A field of a sidecar overlaid on the inherited value: a field that is
    present replaces it, an absent one inherits it. *)
Definition overlaid {A} (present : option A) (inherited result : A) : Prop :=
  match present with
  | Some v => result = v
  | None => result = inherited
  end.

(** The bytes of the sidecar consulted for [requestPath], when there is
    such a file. *)
Definition sidecarData (fs : FileSystem) (requestPath : CleanPath)
  : option YamlDoc :=
  let '(data, err) := fsReadFile fs (cfgFileOf fs requestPath) in
  match err with
  | Some e => if IsNotExist e then None else Some data
  | None => Some data
  end.

(** The policy [readAccessConf] starts a level from: the default at the
    root, the policy resolved for the parent elsewhere. *)
Definition parentResolved (s : HTTPStaticServer) (fs : FileSystem)
    (requestPath : CleanPath) : AccessConf * list LogLine :=
  match requestPath with
  | [] => (defaultAccessConf s, [])
  | _ => readAccessConfAt s fs (Dir requestPath)
  end.

(** The sidecar of [requestPath] exists, was read, and the decoder reports
    an error on it. *)
Definition sidecarMalformed (fs : FileSystem) (requestPath : CleanPath)
    (data : YamlDoc) : Prop :=
  fsReadFile fs (cfgFileOf fs requestPath) = (data, None)
  ∧ ∀ ac, (Unmarshal data ac).2 = true.

Section RuleVocabulary.
Context `{RegexpEngine}.

(** The pattern of a rule matches a file name; a pattern that does not
    compile matches nothing. *)
Definition ruleMatches (table : AccessTable) (fileName : string) : bool :=
  match Compile (Regex table) with
  | Some re => MatchString re fileName
  | None => false
  end.

Definition ruleInvalid (table : AccessTable) : Prop :=
  Compile (Regex table) = None.

(** The first rule that matches decides; no match allows. *)
Fixpoint firstMatch (tables : list AccessTable) (fileName : string) : bool :=
  match tables with
  | [] => true
  | table :: tables' =>
      if ruleMatches table fileName then Allow table
      else firstMatch tables' fileName
  end.

(** Every entry of the cache is what [regexp.Compile] gives for its key,
    and the keys are the patterns compiled so far, each once. *)
Definition cacheInv (rc : ReCache) : Prop :=
  (∀ regex pattern, reCache rc !! regex = Some pattern →
                    pattern = Compile regex)
  ∧ (∀ regex, regex ∈ compiled rc ↔ is_Some (reCache rc !! regex))
  ∧ NoDup (compiled rc).

(** The cache only grows: what was compiled stays compiled, what was
    stored stays stored. *)
Definition cacheExtends (rc rc' : ReCache) : Prop :=
  compiled rc `prefix_of` compiled rc' ∧ reCache rc ⊆ reCache rc'.
End RuleVocabulary.

(** * Example data *)

Definition stat0 : Stat := {| st_size := 0; st_mtime := 0 |}.

Definition dir (names : list (string * FsNode)) : FsNode :=
  FsDir stat0 (inr (map (λ '(name, n), (name, inr n)) names)).

Definition file (content : YamlDoc) : FsNode :=
  FsFile {| st_size := 1; st_mtime := 0 |} content.

(** [upload: false] at the root, [upload: true] in [a]. *)
Definition overlayTree : FsNode :=
  dir [(".ghs.yml", file (YamlDecoded (Some false) None None None false));
       ("a", dir [(".ghs.yml", file (YamlDecoded (Some true) None None None false));
                  ("b", dir [])]);
       ("x", dir [])].

(** The sidecar of [a] sets [upload: true] and gives [delete] a value that
    is not a boolean. *)
Definition illTypedTree : FsNode :=
  dir [("a", dir [(".ghs.yml",
                   file (YamlDecoded (Some true) None None None true));
                  ("b", dir [])])].

(** [a/b/c/file.txt] *)
Definition foldTree : FsNode :=
  dir [("a", dir [("b", dir [("c", dir [("file.txt", file emptyDoc)])])])].

(** Eight directories, each the only child of the one before. *)
Definition chainTree : FsNode :=
  dir [("a", dir [("b", dir [("c", dir [("d", dir [("e", dir [("f",
       dir [("g", dir [("h", dir [("file.txt", file emptyDoc)])])])])])])])])].

Definition plainFile (name : string) : FileInfo :=
  {| fi_Name := name; fi_Size := 1; fi_IsDir := false; fi_ModTime := 0 |}.

Definition docsIndex : list IndexFileItem :=
  [ {| Path := "docs/readme.md"; Info := plainFile "readme.md" |};
    {| Path := "docs/notes.txt"; Info := plainFile "notes.txt" |};
    {| Path := "src/main.go"; Info := plainFile "main.go" |} ].

Definition server0 (idx : list IndexFileItem) : HTTPStaticServer :=
  {| Root := "./"; s_Upload := false; s_Delete := false; indexes := idx |}.

(** [n] files [other/f], [other/ff], ... *)
Fixpoint nameOf (n : nat) : string :=
  match n with O => "f" | S n' => String "f" (nameOf n') end.

Definition otherFiles (n : nat) : list IndexFileItem :=
  map (λ i, {| Path := "other/" +:+ nameOf i; Info := plainFile (nameOf i) |})
      (seq 0 n).

(** Fifty matches outside [docs], then one inside. *)
Definition crowdedIndex : list IndexFileItem :=
  otherFiles 50 ++ [ {| Path := "docs/f"; Info := plainFile "f" |} ].

(** Eighty files, all under [other]. *)
Definition eightyIndex : list IndexFileItem := otherFiles 80.

Definition secretRules : AccessConf :=
  {| Upload := false; Delete := false; Users := [];
     AccessTables := [ {| Regex := "\.secret$"; Allow := false |};
                       {| Regex := ".*"; Allow := true |} ] |}.

(** Two rules whose patterns do not compile. *)
Definition brokenRules : AccessConf :=
  {| Upload := false; Delete := false; Users := [];
     AccessTables := [ {| Regex := "*.txt"; Allow := false |};
                       {| Regex := "a\"; Allow := false |} ] |}.


(** * The rest of the server *)

(** ** [NewHTTPStaticServer] *)

(** [strings.HasSuffix] *)
Fixpoint HasSuffix (s suffix : string) : bool :=
  bool_decide (s = suffix) ||
  match s with
  | EmptyString => false
  | String _ s' => HasSuffix s' suffix
  end.

(** The server as [NewHTTPStaticServer] returns it: the root made to end in
    a slash, the flags and the index at their zero values.  (The router and
    the task that rebuilds the index are set up beside it.) *)
Definition NewHTTPStaticServer (root : string) : HTTPStaticServer :=
  let root := if decide (root = "") then "./" else root in
  let root := ToSlash root in
  let root := if negb (HasSuffix root "/") then root +:+ "/" else root in
  {| Root := root; s_Upload := false; s_Delete := false; indexes := [] |}.

(** ** [hUpload] *)

(** One [*multipart.FileHeader] of the form: its file name and the outcome
    of [Open] on it. *)
Record FileHeader := mkFileHeader {
  Filename : string;
  fh_Open : option OsError
}.

(** [req.ParseMultipartForm] and, when it succeeds,
    [req.MultipartForm.File["file"]]. *)
Inductive MultipartForm :=
| ParseFailed (message : string)
| Parsed (files : list FileHeader).

(** The outcomes of [os.Create] and of [io.Copy] into the file created. *)
Record UploadEnv := mkUploadEnv {
  up_Create : CleanPath → option OsError;
  up_Copy : CleanPath → option OsError
}.

(** The loop over the parts: the answer, the files created so far and the
    errors logged ("Handle upload file:").  The deferred [Close] calls run
    when the handler returns and change none of these; on a failed [Open]
    the deferred call is made on a nil [*os.File] and returns an error. *)
Fixpoint uploadLoop (env : UploadEnv) (dirpath : CleanPath)
    (files : list FileHeader) (created : list CleanPath) (log : list OsError)
  : Response * list CleanPath * list OsError :=
  match files with
  | [] => ({| status := 200; body := "Upload success" |}, created, log)
  | mfile :: files' =>
      match fh_Open mfile with
      | Some err => ({| status := 500; body := errorText err |}, created, log)
      | None =>
          let dst := fsJoin dirpath (Filename mfile) in
          match up_Create env dst with
          | Some err =>
              ({| status := 500; body := errorText err |}, created, log)
          | None =>
              let created := created ++ [dst] in
              match up_Copy env dst with
              | Some err =>
                  ({| status := 500; body := errorText err |},
                   created, log ++ [err])
              | None => uploadLoop env dirpath files' created log
              end
          end
      end
  end.

Definition hUpload (s : HTTPStaticServer) (fs : FileSystem) (env : UploadEnv)
    (path : string) (req : Request) (form : MultipartForm)
  : Response * list CleanPath * list OsError :=
  (* check auth *)
  let '(auth, _) := readAccessConf s fs path in
  if negb (canUpload auth req) then
    ({| status := StatusForbidden; body := "Upload forbidden" |}, [], [])
  else
    match form with
    | ParseFailed message => ({| status := 500; body := message |}, [], [])
    | Parsed files =>
        if decide (length files = 0%nat) then
          ({| status := 500; body := "Need multipart file" |}, [], [])
        else
          let dirpath := underRoot path in
          uploadLoop env dirpath files [] []
    end.

(** ** Vocabulary of the further statements *)

(** Where [hUpload] stores a part. *)
Definition uploadTarget (path : string) (mfile : FileHeader) : CleanPath :=
  fsJoin (underRoot path) (Filename mfile).

(** A part is opened, created and copied without an error. *)
Definition partStored (env : UploadEnv) (path : string) (mfile : FileHeader)
  : Prop :=
  fh_Open mfile = None
  ∧ up_Create env (uploadTarget path mfile) = None
  ∧ up_Copy env (uploadTarget path mfile) = None.

(** A part is opened and created; the copy may fail. *)
Definition partCreated (env : UploadEnv) (path : string) (mfile : FileHeader)
  : Prop :=
  fh_Open mfile = None ∧ up_Create env (uploadTarget path mfile) = None.

(** The fields a sidecar document sets. *)
Definition docUpload (d : YamlDoc) : option bool :=
  match d with YamlDecoded u _ _ _ _ => u | YamlSyntaxError => None end.
Definition docDelete (d : YamlDoc) : option bool :=
  match d with YamlDecoded _ d _ _ _ => d | YamlSyntaxError => None end.
Definition docUsers (d : YamlDoc) : option (list UserControl) :=
  match d with YamlDecoded _ _ us _ _ => us | YamlSyntaxError => None end.
Definition docAccessTables (d : YamlDoc) : option (list AccessTable) :=
  match d with YamlDecoded _ _ _ ts _ => ts | YamlSyntaxError => None end.

(** What the sidecar consulted for a path says about one field. *)
Definition sidecarField {A} (field : YamlDoc → option A) (fs : FileSystem)
    (requestPath : CleanPath) : option A :=
  sidecarData fs requestPath ≫= field.

(** [field] is set by the sidecar of the prefix [q] of [p] and by no
    sidecar further down the path. *)
Definition nearestSidecar {A} (field : YamlDoc → option A) (fs : FileSystem)
    (p q : CleanPath) (v : A) : Prop :=
  q `prefix_of` p
  ∧ sidecarField field fs q = Some v
  ∧ ∀ q', q' `prefix_of` p → (length q < length q')%nat →
          sidecarField field fs q' = None.

(** No sidecar on the way to [p] sets [field]. *)
Definition noSidecarSets {A} (field : YamlDoc → option A) (fs : FileSystem)
    (p : CleanPath) : Prop :=
  ∀ q, q `prefix_of` p → sidecarField field fs q = None.

(** No directory of the tree lists a name twice. *)
Fixpoint distinctNames (node : FsNode) : Prop :=
  match node with
  | FsFile _ _ => True
  | FsDir _ (inl _) => True
  | FsDir _ (inr names) =>
      NoDup (map fst names)
      ∧ (fix each (names : list (string * (OsError + FsNode))) : Prop :=
           match names with
           | [] => True
           | (_, inl _) :: names' => each names'
           | (_, inr child) :: names' => distinctNames child ∧ each names'
           end) names
  end.

(** The name of the only entry of a directory, when that entry is a
    directory: what [deepPath] descends into. *)
Definition singleDirChild (fs : FileSystem) (p : CleanPath) : option string :=
  match fsReadDir fs p with
  | inr [finfo] => if fi_IsDir finfo then Some (fi_Name finfo) else None
  | _ => None
  end.

(** * Properties *)

(** ** PathAuthorizer: resolution *)

Lemma readAccessConfAt_root s fs :
  readAccessConfAt s fs [] = readSidecar fs [] (defaultAccessConf s) [].
Proof. simp readAccessConfAt. reflexivity. Qed.

Lemma readAccessConfAt_snoc s fs p c :
  readAccessConfAt s fs (p ++ [c]) =
  let '(ac, log) := readAccessConfAt s fs p in
  readSidecar fs (p ++ [c]) ac log.
Proof.
  rewrite readAccessConfAt_equation_1.
  destruct (decide _) as [E|E].
  - by destruct p.
  - simpl. unfold Dir. rewrite removelast_last. reflexivity.
Qed.

(** The policy a level yields does not depend on the log handed in. *)
Lemma readSidecar_policy fs p ac log :
  (readSidecar fs p ac log).1 = (readSidecar fs p ac []).1.
Proof.
  unfold readSidecar.
  destruct (fsReadFile fs (cfgFileOf fs p)) as [data [e|]];
    [destruct (IsNotExist e)|]; try reflexivity;
    destruct (Unmarshal data ac); reflexivity.
Qed.

(** A level extends the log, it never rewrites it. *)
Lemma readSidecar_log fs p ac log :
  (readSidecar fs p ac log).2 = log ++ (readSidecar fs p ac []).2.
Proof.
  unfold readSidecar.
  destruct (fsReadFile fs (cfgFileOf fs p)) as [data [e|]];
    [destruct (IsNotExist e)|]; simpl; rewrite ?app_nil_r; try reflexivity;
    destruct (Unmarshal data ac) as [ac' []]; simpl;
    rewrite ?app_nil_r, <- ?app_assoc; reflexivity.
Qed.

(** What one level does to the policy, by the data of its sidecar. *)
Lemma readSidecar_overlay fs p parent log :
  match sidecarData fs p with
  | None => (readSidecar fs p parent log).1 = parent
  | Some data => (readSidecar fs p parent log).1 = (Unmarshal data parent).1
  end.
Proof.
  unfold sidecarData, readSidecar.
  destruct (fsReadFile fs (cfgFileOf fs p)) as [data [e|]];
    [destruct (IsNotExist e)|]; try reflexivity;
    destruct (Unmarshal data parent); reflexivity.
Qed.

Lemma Unmarshal_fields u d us ts e parent :
  let ac := (Unmarshal (YamlDecoded u d us ts e) parent).1 in
  overlaid u (Upload parent) (Upload ac)
  ∧ overlaid d (Delete parent) (Delete ac)
  ∧ overlaid us (Users parent) (Users ac)
  ∧ overlaid ts (AccessTables parent) (AccessTables ac).
Proof. destruct u, d, us, ts; simpl; auto. Qed.

(** C1.  Sidecar overlay: the root policy is the default, seeded with the
    global upload flag and nothing else, overlaid with the sidecar of the
    root; the policy of any other path is the policy resolved for its parent
    overlaid with the sidecar of the directory that owns the path (the
    containing directory when the path names a file).  In an overlay every
    field present in the sidecar replaces the inherited field and every
    absent field inherits it; where there is no sidecar the parent's policy
    is handed down as it is.  With [upload: false] at the root and
    [upload: true] in [/a], [/a/b] may upload and its sibling [/x] may not,
    whatever the global flag says. *)
Theorem C1_resolve_overlays_sidecars :
  (∀ s, defaultAccessConf s
        = {| Upload := s_Upload s; Delete := false;
             Users := []; AccessTables := [] |})
  ∧ (∀ s fs requestPath,
       readAccessConf s fs requestPath
       = readAccessConfAt s fs (Clean requestPath))
  ∧ (∀ s fs,
       (readAccessConfAt s fs []).1
       = (readSidecar fs [] (defaultAccessConf s) []).1)
  ∧ (∀ s fs parentPath name,
       (readAccessConfAt s fs (parentPath ++ [name])).1
       = (readSidecar fs (parentPath ++ [name])
            (readAccessConfAt s fs parentPath).1 []).1)
  ∧ (∀ fs p,
       cfgFileOf fs p
       = (if fsIsFile fs p then fsDir p else p) ++ [".ghs.yml"])
  ∧ (∀ fs p parent log,
       let ac := (readSidecar fs p parent log).1 in
       match sidecarData fs p with
       | None => ac = parent
       | Some YamlSyntaxError => ac = parent
       | Some (YamlDecoded u d us ts _) =>
           overlaid u (Upload parent) (Upload ac)
           ∧ overlaid d (Delete parent) (Delete ac)
           ∧ overlaid us (Users parent) (Users ac)
           ∧ overlaid ts (AccessTables parent) (AccessTables ac)
       end)
  ∧ (∀ s,
       Upload (readAccessConf s (fsOfTree overlayTree) "/a/b").1 = true
       ∧ Upload (readAccessConf s (fsOfTree overlayTree) "/x").1 = false).
Proof.
  repeat apply conj.
  - reflexivity.
  - reflexivity.
  - intros. by rewrite readAccessConfAt_root.
  - intros. rewrite readAccessConfAt_snoc.
    destruct (readAccessConfAt s fs parentPath) as [ac log].
    apply readSidecar_policy.
  - reflexivity.
  - intros fs p parent log ac. subst ac.
    pose proof (readSidecar_overlay fs p parent log) as Hl.
    destruct (sidecarData fs p) as [[|u d us ts e]|]; try exact Hl.
    rewrite Hl. apply Unmarshal_fields.
  - intros s. split.
    + unfold readAccessConf.
      change (Clean "/a/b") with (([] ++ ["a"]) ++ ["b"]).
      rewrite !readAccessConfAt_snoc, readAccessConfAt_root. reflexivity.
    + unfold readAccessConf.
      change (Clean "/x") with ([] ++ ["x"]).
      rewrite readAccessConfAt_snoc, readAccessConfAt_root. reflexivity.
Qed.

Lemma readAccessConfAt_level s fs p :
  readAccessConfAt s fs p =
  let '(ac, log) := parentResolved s fs p in readSidecar fs p ac log.
Proof.
  destruct p as [|c p _] using rev_ind.
  - apply readAccessConfAt_root.
  - rewrite readAccessConfAt_snoc. unfold parentResolved, Dir.
    rewrite removelast_last. by destruct p.
Qed.

(** ** PathAuthorizer: a sidecar that does not decode *)

(** A sidecar on which the decoder reports an error, and a policy that is
    not the parent's: [upload: true] was decoded before the ill-typed
    [delete] was met. *)
Lemma C7_counterexample :
  let s := server0 [] in
  let fs := fsOfTree illTypedTree in
  sidecarMalformed fs ["a"] (YamlDecoded (Some true) None None None true)
  ∧ (readAccessConfAt s fs ["a"]).1 ≠ (parentResolved s fs ["a"]).1
  ∧ Upload (parentResolved s fs ["a"]).1 = false
  ∧ Upload (readAccessConfAt s fs ["a"]).1 = true.
Proof.
  repeat apply conj; try reflexivity.
  vm_compute. discriminate.
Qed.

(** C7, amended.  A sidecar that exists and on which the decoder reports an
    error never fails the resolution: the error is logged, and the policy of
    that level is the parent-resolved policy overlaid with the fields the
    decoder wrote before it reported the error.  It is the parent-resolved
    policy itself when the document could not be parsed at all, or when no
    field was decoded.  Resolution goes on below: a deeper level overlays its
    own sidecar on this policy. *)
Theorem C7_malformed_sidecar_overlays_decoded_fields
    (s : HTTPStaticServer) (fs : FileSystem) (p : CleanPath) (data : YamlDoc) :
  sidecarMalformed fs p data →
  let parent := parentResolved s fs p in
  let level := readAccessConfAt s fs p in
  level.2 = parent.2 ++ [LogErrFormat (cfgFileOf fs p)]
  ∧ level.1 = (Unmarshal data parent.1).1
  ∧ match data with
    | YamlSyntaxError => level.1 = parent.1
    | YamlDecoded u d us ts _ =>
        overlaid u (Upload parent.1) (Upload level.1)
        ∧ overlaid d (Delete parent.1) (Delete level.1)
        ∧ overlaid us (Users parent.1) (Users level.1)
        ∧ overlaid ts (AccessTables parent.1) (AccessTables level.1)
    end
  ∧ ∀ name,
      (readAccessConfAt s fs (p ++ [name])).1
      = (readSidecar fs (p ++ [name]) level.1 []).1.
Proof.
  intros [Hread Herr]. cbv zeta.
  assert (Hsnoc : ∀ name,
    (readAccessConfAt s fs (p ++ [name])).1
    = (readSidecar fs (p ++ [name]) (readAccessConfAt s fs p).1 []).1).
  { intros name. rewrite readAccessConfAt_snoc.
    destruct (readAccessConfAt s fs p). apply readSidecar_policy. }
  revert Hsnoc. rewrite (readAccessConfAt_level s fs p).
  destruct (parentResolved s fs p) as [pac plog]. simpl.
  assert (Hrs : readSidecar fs p pac plog
                = ((Unmarshal data pac).1,
                   plog ++ [LogErrFormat (cfgFileOf fs p)])).
  { unfold readSidecar. rewrite Hread.
    specialize (Herr pac). destruct (Unmarshal data pac) as [ac' e].
    simpl in *. by subst e. }
  rewrite Hrs. simpl. intros Hsnoc.
  repeat apply conj; try reflexivity; [|exact Hsnoc].
  destruct data as [|u d us ts e]; [reflexivity|]. apply Unmarshal_fields.
Qed.

Lemma C7_malformed_sidecar_witness :
  sidecarMalformed (fsOfTree illTypedTree) ["a"]
    (YamlDecoded (Some true) None None None true)
  ∧ (readAccessConfAt (server0 []) (fsOfTree illTypedTree) ["a"]).2
    = [LogErrFormat ["a"; ".ghs.yml"]].
Proof.
  assert (Hm : sidecarMalformed (fsOfTree illTypedTree) ["a"]
                 (YamlDecoded (Some true) None None None true)).
  { split; [reflexivity | intros ac; reflexivity]. }
  split; [exact Hm|].
  exact (proj1 (C7_malformed_sidecar_overlays_decoded_fields
                  (server0 []) (fsOfTree illTypedTree) ["a"] _ Hm)).
Defined.

(** ** PathAuthorizer: deletion *)

(** Without a sidecar on the way, the default policy reaches the leaf. *)
Lemma readAccessConfAt_no_sidecar s fs p :
  (∀ q, q `prefix_of` p → sidecarData fs q = None) →
  (readAccessConfAt s fs p).1 = defaultAccessConf s.
Proof.
  induction p as [|c p IH] using rev_ind; intros Hnone.
  - rewrite readAccessConfAt_root.
    pose proof (readSidecar_overlay fs [] (defaultAccessConf s) []) as Hl.
    by rewrite (Hnone [] (prefix_nil _)) in Hl.
  - rewrite readAccessConfAt_snoc.
    destruct (readAccessConfAt s fs p) as [ac log] eqn:Hp. simpl in IH.
    pose proof (readSidecar_overlay fs (p ++ [c]) ac log) as Hl.
    rewrite (Hnone (p ++ [c])) in Hl by reflexivity.
    rewrite Hl. apply IH. intros q Hq. apply Hnone.
    by apply prefix_app_r.
Qed.

(** Where a resolved policy allows deletion, or carries user overrides, some
    sidecar on the way said so. *)
Lemma readAccessConfAt_provenance s fs p :
  let ac := (readAccessConfAt s fs p).1 in
  (Delete ac = true →
   ∃ q u us ts e, q `prefix_of` p
     ∧ sidecarData fs q = Some (YamlDecoded u (Some true) us ts e))
  ∧ (Users ac ≠ [] →
     ∃ q u d ts e, q `prefix_of` p
       ∧ sidecarData fs q = Some (YamlDecoded u d (Some (Users ac)) ts e)).
Proof.
  cbv zeta.
  assert (Hstep : ∀ p parent log,
    let ac := (readSidecar fs p parent log).1 in
    (Delete ac = true →
       Delete parent = true
       ∨ ∃ u us ts e,
           sidecarData fs p = Some (YamlDecoded u (Some true) us ts e))
    ∧ (Users ac ≠ [] →
       Users ac = Users parent
       ∨ ∃ u d ts e,
           sidecarData fs p = Some (YamlDecoded u d (Some (Users ac)) ts e))).
  { intros p0 parent log. cbv zeta.
    pose proof (readSidecar_overlay fs p0 parent log) as Hl.
    destruct (sidecarData fs p0) as [[|u d us ts e]|]; rewrite Hl; simpl;
      [tauto| |tauto].
    split.
    - destruct d as [[]|]; simpl; intros Hd; try discriminate; eauto 10.
    - destruct us as [us|]; simpl; intros Hu; eauto 10. }
  induction p as [|c p IH] using rev_ind.
  - rewrite readAccessConfAt_root.
    destruct (Hstep [] (defaultAccessConf s) []) as [Hd Hu]. split.
    + intros Ht. destruct (Hd Ht) as [Hf|(u & us & ts & e & Hs)];
        [discriminate|]. by exists [], u, us, ts, e.
    + intros Hne. destruct (Hu Hne) as [Hf|(u & d & ts & e & Hs)].
      * by rewrite Hf in Hne.
      * by exists [], u, d, ts, e.
  - rewrite readAccessConfAt_snoc.
    destruct (readAccessConfAt s fs p) as [ac log]. simpl in IH.
    destruct IH as [IHd IHu].
    destruct (Hstep (p ++ [c]) ac log) as [Hd Hu]. split.
    + intros Ht. destruct (Hd Ht) as [Hp|(u & us & ts & e & Hs)].
      * destruct (IHd Hp) as (q & u & us & ts & e & Hq & Hs).
        exists q, u, us, ts, e. split; [by apply prefix_app_r | done].
      * by exists (p ++ [c]), u, us, ts, e.
    + intros Hne. destruct (Hu Hne) as [Hp|(u & d & ts & e & Hs)].
      * rewrite Hp in Hne |- *.
        destruct (IHu Hne) as (q & u & d & ts & e & Hq & Hs).
        exists q, u, d, ts, e. split; [by apply prefix_app_r | done].
      * by exists (p ++ [c]), u, d, ts, e.
Qed.

Lemma firstUser_Some users email rule :
  firstUser users email = Some rule → rule ∈ users ∧ Email rule = email.
Proof.
  induction users as [|r users IH]; simpl; [done|].
  destruct (decide (Email r = email)) as [E|E].
  - intros [= <-]. split; [left | done].
  - intros Hf. destruct (IH Hf). split; [by right | done].
Qed.

(** C10.  Deletion is denied by default.  The default policy takes the
    upload flag from the server and leaves the delete flag false and the
    user overrides empty.  So for a request path with no sidecar anywhere on
    the way from the root, [canDelete] is false for every caller, with or
    without an identity, and [hDelete] answers 403 without a call to
    [os.Remove].  Deletion can be allowed only when a sidecar on the way
    sets [delete: true], or lists the caller among its users with the delete
    flag set; and [hDelete] removes nothing unless [canDelete] allows it. *)
Theorem C10_delete_denied_by_default
    (s : HTTPStaticServer) (fs : FileSystem)
    (remove : CleanPath → option OsError) (path : string) (req : Request) :
  let auth := (readAccessConf s fs path).1 in
  (Delete (defaultAccessConf s) = false
   ∧ Users (defaultAccessConf s) = []
   ∧ Upload (defaultAccessConf s) = s_Upload s)
  ∧ ((∀ q, q `prefix_of` Clean path → sidecarData fs q = None) →
     canDelete auth req = false
     ∧ hDelete s fs remove path req
       = ({| status := 403; body := "Delete forbidden" |}, []))
  ∧ (canDelete auth req = true →
     ∃ q u d us ts e,
       q `prefix_of` Clean path
       ∧ sidecarData fs q = Some (YamlDecoded u d us ts e)
       ∧ (d = Some true
          ∨ ∃ users rule userInfo,
              us = Some users ∧ req = LoggedIn userInfo ∧ rule ∈ users
              ∧ Email rule = ui_Email userInfo ∧ u_Delete rule = true))
  ∧ ((hDelete s fs remove path req).2 ≠ [] → canDelete auth req = true).
Proof.
  cbv zeta. repeat apply conj; try reflexivity.
  - intros Hnone.
    assert (Hd : canDelete (readAccessConf s fs path).1 req = false).
    { unfold readAccessConf. rewrite readAccessConfAt_no_sidecar by done.
      by destruct req. }
    split; [exact Hd|]. unfold hDelete.
    destruct (readAccessConf s fs path) as [auth log]. simpl in Hd.
    by rewrite Hd.
  - unfold readAccessConf.
    destruct (readAccessConfAt_provenance s fs (Clean path)) as [Hd Hu].
    set (auth := (readAccessConfAt s fs (Clean path)).1) in *.
    assert (Hflag : Delete auth = true →
      ∃ q u d us ts e, q `prefix_of` Clean path
        ∧ sidecarData fs q = Some (YamlDecoded u d us ts e)
        ∧ (d = Some true
           ∨ ∃ users rule userInfo,
               us = Some users ∧ req = LoggedIn userInfo ∧ rule ∈ users
               ∧ Email rule = ui_Email userInfo ∧ u_Delete rule = true)).
    { intros Ht. destruct (Hd Ht) as (q & u & us & ts & e & Hq & Hs).
      exists q, u, (Some true), us, ts, e. auto. }
    destruct req as [| |userInfo]; simpl; try exact Hflag.
    destruct (firstUser (Users auth) (ui_Email userInfo)) as [rule|] eqn:Hf;
      [|exact Hflag].
    intros Hrule. apply firstUser_Some in Hf as [Hin Hmail].
    assert (Hne : Users auth ≠ []) by (intros E; rewrite E in Hin; inversion Hin).
    destruct (Hu Hne) as (q & u & d & ts & e & Hq & Hs).
    exists q, u, d, (Some (Users auth)), ts, e.
    split; [done|]. split; [done|]. right.
    exists (Users auth), rule, userInfo. done.
  - unfold hDelete.
    destruct (readAccessConf s fs path) as [auth log]. simpl.
    destruct (canDelete auth req); simpl; [done|]. intros Hf. by destruct Hf.
Qed.

Lemma C10_delete_denied_witness :
  (∀ q, q `prefix_of` Clean "/a/b/file.txt" →
        sidecarData (fsOfTree foldTree) q = None)
  ∧ hDelete (server0 []) (fsOfTree foldTree) (λ _, None) "/a/b/file.txt"
      (LoggedIn {| ui_Email := "root@example.org" |})
    = ({| status := 403; body := "Delete forbidden" |}, []).
Proof.
  assert (Hnone : ∀ q, q `prefix_of` Clean "/a/b/file.txt" →
                       sidecarData (fsOfTree foldTree) q = None).
  { intros q [k Hk].
    change (Clean "/a/b/file.txt") with ["a"; "b"; "file.txt"] in Hk.
    destruct q as [|c1 [|c2 [|c3 [|c4 q]]]]; simplify_eq/=; reflexivity. }
  split; [exact Hnone|].
  exact (proj2 (proj1 (proj2
    (C10_delete_denied_by_default (server0 []) (fsOfTree foldTree)
       (λ _, None) "/a/b/file.txt"
       (LoggedIn {| ui_Email := "root@example.org" |}))) Hnone)).
Defined.

(** ** PathAuthorizer: the rules and the pattern cache *)

Section RuleFacts.
Context `{RegexpEngine}.

Lemma cacheInv_reCache0 : cacheInv reCache0.
Proof.
  repeat split; simpl.
  - intros regex pattern Hl. by rewrite lookup_empty in Hl.
  - intros Hin. inversion Hin.
  - intros [x Hx]. by rewrite lookup_empty in Hx.
  - constructor.
Qed.

Lemma cacheExtends_refl rc : cacheExtends rc rc.
Proof. split; reflexivity. Qed.

Lemma cacheExtends_trans rc1 rc2 rc3 :
  cacheExtends rc1 rc2 → cacheExtends rc2 rc3 → cacheExtends rc1 rc3.
Proof. intros [? ?] [? ?]. split; etrans; eauto. Qed.

(** A look-up through the cache gives what [regexp.Compile] gives, and
    compiles only a pattern that was never compiled before. *)
Lemma cachedPattern_inv regex rc :
  cacheInv rc →
  (cachedPattern regex rc).1 = Compile regex
  ∧ cacheInv (cachedPattern regex rc).2
  ∧ cacheExtends rc (cachedPattern regex rc).2
  ∧ reCache (cachedPattern regex rc).2 !! regex = Some (Compile regex).
Proof.
  intros (Hval & Hdom & Hnd). unfold cachedPattern.
  destruct (reCache rc !! regex) as [pattern|] eqn:Hl; simpl.
  - pose proof (Hval _ _ Hl) as ->.
    repeat split; auto using cacheExtends_refl; by apply Hdom.
  - repeat split; simpl.
    + intros k v. rewrite lookup_insert. case_decide.
      * subst. by intros [= <-].
      * apply Hval.
    + rewrite elem_of_app, list_elem_of_singleton, lookup_insert.
      intros [Hin| ->]; case_decide; eauto; try done. by apply Hdom.
    + rewrite elem_of_app, list_elem_of_singleton, lookup_insert.
      case_decide; [by right; subst|]. intros Hs. left. by apply Hdom.
    + apply NoDup_app. repeat split; [done| |apply NoDup_singleton].
      intros x Hx ->%list_elem_of_singleton.
      apply Hdom in Hx as [v Hv]. congruence.
    + by apply prefix_app_r.
    + by apply insert_subseteq.
    + by rewrite lookup_insert_eq.
Qed.

Lemma canAccessLoop_inv tables fileName rc :
  cacheInv rc →
  (canAccessLoop tables fileName rc).1 = Some (firstMatch tables fileName)
  ∧ cacheInv (canAccessLoop tables fileName rc).2
  ∧ cacheExtends rc (canAccessLoop tables fileName rc).2.
Proof.
  revert rc. induction tables as [|table tables IH]; intros rc Hinv; simpl.
  - auto using cacheExtends_refl.
  - destruct (cachedPattern_inv (Regex table) rc Hinv) as (Hp & Hinv' & Hext & _).
    destruct (cachedPattern (Regex table) rc) as [pattern rc'].
    simpl in Hp, Hinv', Hext. unfold ruleMatches. rewrite <- Hp.
    destruct pattern as [re|]; simpl.
    + destruct (MatchString re fileName); simpl; [done|].
      destruct (IH rc' Hinv') as (? & ? & ?).
      eauto using cacheExtends_trans.
    + destruct (IH rc' Hinv') as (? & ? & ?).
      eauto using cacheExtends_trans.
Qed.

Lemma canAccessCalls_inv calls rc :
  cacheInv rc →
  cacheInv (canAccessCalls calls rc).2
  ∧ cacheExtends rc (canAccessCalls calls rc).2.
Proof.
  revert rc. induction calls as [|[c fileName] calls IH]; intros rc Hinv; simpl.
  - auto using cacheExtends_refl.
  - destruct (canAccessLoop_inv (AccessTables c) fileName rc Hinv)
      as (_ & Hinv' & Hext).
    unfold canAccess.
    destruct (canAccessLoop (AccessTables c) fileName rc) as [r rc'].
    simpl in *. destruct (IH rc' Hinv') as [? ?].
    destruct (canAccessCalls calls rc') as [rs rc'']. simpl in *.
    eauto using cacheExtends_trans.
Qed.

(** The guard on the nil pattern keeps the loop from the panic, whatever
    the cache holds. *)
Lemma canAccessLoop_no_panic tables fileName rc :
  (canAccessLoop tables fileName rc).1 ≠ None.
Proof.
  revert rc. induction tables as [|table tables IH]; intros rc; simpl; [done|].
  destruct (cachedPattern (Regex table) rc) as [[re|] rc']; simpl; [|apply IH].
  destruct (MatchString re fileName); [done | apply IH].
Qed.

Lemma firstMatch_first tables fileName i table :
  tables !! i = Some table →
  ruleMatches table fileName = true →
  (∀ j table', (j < i)%nat → tables !! j = Some table' →
               ruleMatches table' fileName = false) →
  firstMatch tables fileName = Allow table.
Proof.
  revert i. induction tables as [|t tables IH]; intros i Hi Hm Hbefore; [done|].
  destruct i as [|i]; simpl in *.
  - injection Hi as ->. by rewrite Hm.
  - rewrite (Hbefore 0%nat t) by (simpl; auto with lia).
    apply (IH i); auto. intros j t' Hj Ht'. apply (Hbefore (S j)); auto with lia.
Qed.

Lemma firstMatch_none tables fileName :
  (∀ table, table ∈ tables → ruleMatches table fileName = false) →
  firstMatch tables fileName = true.
Proof.
  induction tables as [|t tables IH]; intros Hno; simpl; [done|].
  rewrite Hno by left. apply IH. intros t' Ht'. apply Hno. by right.
Qed.

Lemma firstMatch_skip before table after fileName :
  ruleMatches table fileName = false →
  firstMatch (before ++ table :: after) fileName
  = firstMatch (before ++ after) fileName.
Proof.
  intros Hno. induction before as [|t before IH]; simpl.
  - by rewrite Hno.
  - by rewrite IH.
Qed.

Lemma ruleInvalid_no_match table fileName :
  ruleInvalid table → ruleMatches table fileName = false.
Proof. unfold ruleInvalid, ruleMatches. by intros ->. Qed.
End RuleFacts.

(** C2.  Rule precedence: at any point of the life of the process, that is
    on the cache left by any earlier calls, [canAccess] goes through the
    rules in order; the first rule whose pattern matches the file name
    decides, and with no matching rule the answer is to allow.  With the
    rules [\.secret$] (deny) and [.*] (allow), [x.secret] is denied and
    [x.txt] is allowed. *)
Theorem C2_first_matching_rule_decides :
  (∀ (E : RegexpEngine) (calls : list (AccessConf * string))
     (c : AccessConf) (fileName : string),
     let rc := (canAccessCalls calls reCache0).2 in
     (canAccess c fileName rc).1 = Some (firstMatch (AccessTables c) fileName)
     ∧ (∀ i table,
          AccessTables c !! i = Some table →
          ruleMatches table fileName = true →
          (∀ j table', (j < i)%nat → AccessTables c !! j = Some table' →
                       ruleMatches table' fileName = false) →
          (canAccess c fileName rc).1 = Some (Allow table))
     ∧ ((∀ table, table ∈ AccessTables c →
                  ruleMatches table fileName = false) →
        (canAccess c fileName rc).1 = Some true))
  ∧ (canAccess (H := MiniRE.engine) secretRules "x.secret" reCache0).1
    = Some false
  ∧ (canAccess (H := MiniRE.engine) secretRules "x.txt" reCache0).1
    = Some true.
Proof.
  split; [|split; reflexivity].
  intros E calls c fileName rc.
  assert (Hinv : cacheInv rc)
    by apply canAccessCalls_inv, cacheInv_reCache0.
  destruct (canAccessLoop_inv (AccessTables c) fileName rc Hinv) as (Hr & _).
  unfold canAccess. rewrite Hr. repeat split.
  - intros i table Hi Hm Hbefore. f_equal. by apply (firstMatch_first _ _ i).
  - intros Hno. f_equal. by apply firstMatch_none.
Qed.

Lemma C2_first_matching_rule_witness :
  AccessTables secretRules !! 0%nat
  = Some {| Regex := "\.secret$"; Allow := false |}
  ∧ ruleMatches (H := MiniRE.engine)
      {| Regex := "\.secret$"; Allow := false |} "x.secret" = true
  ∧ (canAccess (H := MiniRE.engine) secretRules "x.secret"
       (canAccessCalls [(secretRules, "x.txt")] reCache0).2).1
    = Some false.
Proof.
  split; [reflexivity|]. split; [reflexivity|].
  refine (proj1 (proj2 (proj1 C2_first_matching_rule_decides MiniRE.engine
            [(secretRules, "x.txt")] secretRules "x.secret"))
            0%nat {| Regex := "\.secret$"; Allow := false |} _ _ _).
  - reflexivity.
  - reflexivity.
  - intros j table' Hj. lia.
Defined.

(** C3.  Patterns that do not compile are harmless.  [canAccess] never
    panics, whatever the cache holds.  On the cache left by any earlier
    calls, a rule whose pattern does not compile matches no file name and is
    skipped: the answer is the one the other rules give.  The failure is
    remembered: once a pattern has been handed to [regexp.Compile] its entry
    stays in the cache (the nil pattern, for a failure), no later call
    compiles it again, and over the whole run no pattern is compiled twice.
    A policy with nothing but such rules allows every file name, as a policy
    without rules does. *)
Theorem C3_invalid_pattern_safety
    (E : RegexpEngine) (calls : list (AccessConf * string))
    (c : AccessConf) (fileName : string) :
  let rc := (canAccessCalls calls reCache0).2 in
  let rc' := (canAccess c fileName rc).2 in
  (∀ rc0, (canAccess c fileName rc0).1 ≠ None)
  ∧ (∀ before table after,
       AccessTables c = before ++ table :: after →
       ruleInvalid table →
       ruleMatches table fileName = false
       ∧ (canAccess c fileName rc).1
         = (canAccessLoop (before ++ after) fileName rc).1)
  ∧ NoDup (compiled rc')
  ∧ (∀ regex,
       regex ∈ compiled rc →
       reCache rc !! regex = Some (Compile regex)
       ∧ reCache rc' !! regex = Some (Compile regex)
       ∧ ∃ new, compiled rc' = compiled rc ++ new ∧ regex ∉ new)
  ∧ ((∀ table, table ∈ AccessTables c → ruleInvalid table) →
     (canAccess c fileName rc).1 = Some true
     ∧ (canAccess c fileName rc).1
       = (canAccessLoop [] fileName rc).1).
Proof.
  intros rc rc'.
  assert (Hinv : cacheInv rc)
    by apply canAccessCalls_inv, cacheInv_reCache0.
  destruct (canAccessLoop_inv (AccessTables c) fileName rc Hinv)
    as (Hr & Hinv' & Hpre & Hsub).
  fold (canAccess c fileName rc) in Hr, Hinv', Hpre, Hsub. fold rc' in Hinv', Hpre, Hsub.
  repeat apply conj.
  - intros rc0. apply canAccessLoop_no_panic.
  - intros before table after Htabs Hbad.
    pose proof (ruleInvalid_no_match table fileName Hbad) as Hno.
    split; [exact Hno|]. rewrite Hr, Htabs.
    destruct (canAccessLoop_inv (before ++ after) fileName rc Hinv) as (-> & _).
    f_equal. by apply firstMatch_skip.
  - apply Hinv'.
  - intros regex Hin.
    destruct Hinv as (Hval & Hdom & Hnd).
    apply Hdom in Hin as Hsome. destruct Hsome as [v Hv].
    pose proof (Hval _ _ Hv) as ->.
    split; [exact Hv|]. split.
    + by apply (lookup_weaken _ _ _ _ Hv).
    + destruct Hpre as [new Hnew]. exists new. split; [exact Hnew|].
      destruct Hinv' as (_ & _ & Hnd'). rewrite Hnew in Hnd'.
      apply NoDup_app in Hnd' as (_ & Hdisj & _). by apply Hdisj.
  - intros Hall.
    assert (Hfm : firstMatch (AccessTables c) fileName = true).
    { apply firstMatch_none. intros table Ht.
      by apply ruleInvalid_no_match, Hall. }
    rewrite Hr, Hfm. done.
Qed.

Lemma C3_invalid_pattern_witness :
  (∀ table, table ∈ AccessTables brokenRules →
            ruleInvalid (H := MiniRE.engine) table)
  ∧ (canAccess (H := MiniRE.engine) brokenRules "notes.txt"
       (canAccessCalls [(brokenRules, "a.txt")] reCache0).2).1 = Some true.
Proof.
  assert (Hbad : ∀ table, table ∈ AccessTables brokenRules →
                          ruleInvalid (H := MiniRE.engine) table).
  { intros table Ht. simpl in Ht.
    apply elem_of_cons in Ht as [->|Ht]; [reflexivity|].
    apply elem_of_cons in Ht as [->|Ht]; [reflexivity|].
    inversion Ht. }
  split; [exact Hbad|].
  exact (proj1 (proj2 (proj2 (proj2 (proj2
    (C3_invalid_pattern_safety MiniRE.engine [(brokenRules, "a.txt")]
       brokenRules "notes.txt")))) Hbad)).
Defined.

(** ** SearchIndex: queries *)

(** The inner loop is the conjunction of the tokens. *)
Lemma keywordLoop_forallb itemPath keywords :
  keywordLoop itemPath keywords true
  = forallb (tokenSucceeds itemPath) keywords.
Proof.
  induction keywords as [|keyword keywords IH]; simpl; [done|].
  unfold tokenSucceeds, containsFold.
  destruct (HasPrefix keyword "-") eqn:Hdash; simpl;
    (case_decide; [done|]);
    destruct (Contains _ _); simpl; done.
Qed.

Lemma findIndexLoop_filter items text ret :
  findIndexLoop items text ret
  = ret ++ List.filter
             (λ item, forallb (tokenSucceeds (Path item)) (Fields text)) items.
Proof.
  revert ret. induction items as [|item items IH]; intros ret; simpl.
  - by rewrite app_nil_r.
  - rewrite IH, keywordLoop_forallb.
    destruct (forallb _ _); [by rewrite <- app_assoc | done].
Qed.

Lemma filter_sublist {A} (f : A → bool) (l : list A) :
  List.filter f l `sublist_of` l.
Proof.
  induction l as [|x l IH]; simpl; [constructor|].
  destruct (f x); by constructor.
Qed.

Lemma Fields_tokens s : Forall isToken (Fields s).
Proof.
  induction s as [|c s IH]; simpl; [constructor|].
  destruct (isSpace c) eqn:Hc; [done|].
  destruct s as [|d s']; [repeat constructor; simpl; [done | by rewrite Hc]|].
  destruct (isSpace d) eqn:Hd.
  - constructor; [|done]. split; [done|]. simpl. by rewrite Hc.
  - destruct (Fields (String d s')) as [|h t] eqn:Hf.
    + repeat constructor; simpl; [done | by rewrite Hc].
    + inversion IH as [|? ? [Hh1 Hh2] Ht]; subst.
      constructor; [|done]. split; [done|]. simpl. by rewrite Hc, Hh2.
Qed.

(** A token followed by white space is cut off as it is. *)
Lemma Fields_token_space token sp s :
  isToken token → isSpace sp = true →
  Fields (token +:+ String sp s) = token :: Fields s.
Proof.
  intros [Hne Hfree] Hsp. induction token as [|c token IH]; [done|].
  simpl in Hfree. apply andb_true_iff in Hfree as [Hc Hfree].
  apply negb_true_iff in Hc.
  change (String c token +:+ String sp s) with (String c (token +:+ String sp s)).
  cbn [Fields]. rewrite Hc.
  destruct token as [|d token'].
  - simpl. by rewrite Hsp.
  - change (String d token' +:+ String sp s)
      with (String d (token' +:+ String sp s)) in *.
    simpl in Hfree. apply andb_true_iff in Hfree as [Hd Hfree'].
    apply negb_true_iff in Hd. rewrite Hd.
    rewrite IH; [done | done |]. simpl. by rewrite Hd.
Qed.

(** A token at the end of the query is one field. *)
Lemma Fields_token token : isToken token → Fields token = [token].
Proof.
  intros [Hne Hfree]. induction token as [|c token IH]; [done|].
  simpl in Hfree. apply andb_true_iff in Hfree as [Hc Hfree].
  apply negb_true_iff in Hc. cbn [Fields]. rewrite Hc.
  destruct token as [|d token']; [done|].
  simpl in Hfree. apply andb_true_iff in Hfree as [Hd Hfree'].
  apply negb_true_iff in Hd. rewrite Hd.
  rewrite IH; [done | done |]. simpl. by rewrite Hd.
Qed.

(** C4.  Search: the query is cut at white space into tokens; a token that
    starts with [-] asks that the entry path does not contain the rest of
    it, any other token asks that the path contains it, in both cases with
    the letter case folded; a token with nothing to look for is ignored.
    The result is the snapshot filtered, in its order, by the entries on
    which every token succeeds.  On [docs/readme.md], [docs/notes.txt],
    [src/main.go] the query [docs -notes] finds [docs/readme.md] only. *)
Theorem C4_search_token_semantics (s : HTTPStaticServer) (query : string) :
  findIndex s query = searchSpec (indexes s) query
  ∧ (∀ item, item ∈ findIndex s query ↔
             item ∈ indexes s
             ∧ ∀ token, token ∈ Fields query →
                        tokenSucceeds (Path item) token = true)
  ∧ findIndex s query `sublist_of` indexes s
  ∧ Forall isToken (Fields query)
  ∧ (∀ sp rest, isSpace sp = true → Fields (String sp rest) = Fields rest)
  ∧ (∀ token sp rest,
       isToken token → isSpace sp = true →
       Fields (token +:+ String sp rest) = token :: Fields rest)
  ∧ (∀ token, isToken token → Fields token = [token])
  ∧ (∀ path rest,
       tokenSucceeds path (String "-" rest)
       = if decide (rest = "") then true
         else negb (Contains (ToLower path) (ToLower rest)))
  ∧ (∀ path token,
       HasPrefix token "-" = false → token ≠ "" →
       tokenSucceeds path token = Contains (ToLower path) (ToLower token))
  ∧ map Path (findIndex (server0 docsIndex) "docs -notes")
    = ["docs/readme.md"].
Proof.
  assert (Hfind : findIndex s query = searchSpec (indexes s) query)
    by apply (findIndexLoop_filter _ _ []).
  repeat apply conj.
  - exact Hfind.
  - intros item. rewrite Hfind. unfold searchSpec.
    rewrite list_elem_of_In, filter_In, <- list_elem_of_In, forallb_forall.
    by setoid_rewrite <- list_elem_of_In.
  - rewrite Hfind. apply filter_sublist.
  - apply Fields_tokens.
  - intros sp rest Hsp. simpl. by rewrite Hsp.
  - apply Fields_token_space.
  - apply Fields_token.
  - intros path rest. unfold tokenSucceeds, containsFold.
    assert (HasPrefix (String "-" rest) "-" = true) as ->
      by (by destruct rest).
    reflexivity.
  - intros path token Hdash Hne. unfold tokenSucceeds, containsFold.
    rewrite Hdash. by case_decide.
  - reflexivity.
Qed.

Lemma C4_search_token_witness :
  HasPrefix "docs" "-" = false ∧ "docs" ≠ ""
  ∧ tokenSucceeds "docs/readme.md" "docs" = true.
Proof.
  split; [reflexivity|]. split; [discriminate|].
  rewrite (proj1 (proj2 (proj2 (proj2 (proj2 (proj2 (proj2 (proj2 (proj2
             (C4_search_token_semantics (server0 docsIndex)
                "docs -notes")))))))))
             "docs/readme.md" "docs"); [reflexivity | reflexivity | discriminate].
Defined.

(** ** SearchIndex: the build *)

(** Induction over a tree, with the hypothesis for every child that could be
    inspected. *)
Lemma FsNode_tree_ind (P : FsNode → Prop) :
  (∀ st content, P (FsFile st content)) →
  (∀ st err, P (FsDir st (inl err))) →
  (∀ st names,
     Forall (λ ne, match ne.2 with inr child => P child | inl _ => True end)
            names →
     P (FsDir st (inr names))) →
  ∀ node, P node.
Proof.
  intros Hfile Herr Hdir. fix IH 1.
  intros [st content|st [err|names]]; [apply Hfile | apply Herr |].
  apply Hdir. revert names. fix IHnames 1.
  intros [|[name [err|child]] names]; constructor; simpl; auto.
Qed.

(** The files of a directory are the files of its names, one after the
    other. *)
Lemma filesUnder_dir path name st names :
  filesUnder path name (FsDir st (inr names))
  = concat (map (λ ne, filesOfEntry path ne.1 ne.2) names).
Proof.
  simpl. induction names as [|[n [err|child]] names IH]; simpl; [done|done|].
  by rewrite IH.
Qed.

Lemma walk_makeIndexFn node :
  ∀ path name indexes log,
    ∃ log',
      walk makeIndexFn path name node (indexes, log)
      = ((indexes ++ filesUnder path name node, log ++ log'), walkResult node).
Proof.
  induction node as [st content|st err|st names IH] using FsNode_tree_ind;
    intros path name indexes log.
  - exists []. simpl. by rewrite app_nil_r.
  - exists [LogVisit path]. simpl. by rewrite app_nil_r.
  - rewrite filesUnder_dir. cbn [walk makeIndexFn nodeInfo nodeIsDir fi_IsDir].
    cbn [walkResult]. revert indexes log.
    induction IH as [|[n entry] names Hentry _ IHnames]; intros indexes log.
    + exists []. simpl. by rewrite !app_nil_r.
    + destruct entry as [err|child]; simpl in Hentry.
      * destruct (IHnames indexes (log ++ [LogVisit (path ++ [n])]))
          as [log' Hrange].
        exists ([LogVisit (path ++ [n])] ++ log').
        cbn [makeIndexFn]. rewrite Hrange. simpl.
        by rewrite <- !app_assoc.
      * destruct (Hentry (path ++ [n]) n indexes log) as [log1 Hwalk].
        rewrite Hwalk.
        destruct (IHnames (indexes ++ filesUnder (path ++ [n]) n child)
                    (log ++ log1)) as [log' Hrange].
        exists (log1 ++ log').
        assert (Hcont : match walkResult child with
                        | Some e => negb (nodeIsDir child) || negb (isSkipDir e)
                        | None => false
                        end = false)
          by (by destruct child as [|? [|]]).
        destruct (walkResult child) as [e|]; [rewrite Hcont|];
          rewrite Hrange; simpl; by rewrite <- !app_assoc.
Qed.

Lemma filesUnder_files path name node :
  Forall (λ item, fi_IsDir (Info item) = false) (filesUnder path name node).
Proof.
  revert path name.
  induction node as [st content|st err|st names IH] using FsNode_tree_ind;
    intros path name.
  - by repeat constructor.
  - constructor.
  - rewrite filesUnder_dir.
    induction IH as [|[n [err|child]] names Hentry _ IHnames]; simpl.
    + constructor.
    + done.
    + apply Forall_app. split; [apply Hentry | done].
Qed.

(** C8.  The build of a snapshot tolerates what it cannot read.  The entries
    are the files of the tree, in the order of the walk: directories are
    descended into and never become entries.  A name that cannot be
    inspected and a directory that cannot be read contribute nothing, and
    the entries before and after them are indexed all the same.  The build
    returns an error only when the root itself cannot be opened; the Go
    releases that hand a final [SkipDir] back return it exactly then. *)
Theorem C8_index_build_tolerates_walk_errors
    (skipDirIsNil : bool) (s : HTTPStaticServer) (root : OsError + FsNode) :
  let s' := (makeIndex skipDirIsNil s root).1.1 in
  let err := (makeIndex skipDirIsNil s root).1.2 in
  indexes s' = match root with
               | inl _ => []
               | inr node => filesUnder [] (rootName s) node
               end
  ∧ Forall (λ item, fi_IsDir (Info item) = false) (indexes s')
  ∧ (∀ path name st content,
       filesUnder path name (FsFile st content)
       = [{| Path := relToRoot path;
             Info := nodeInfo name (FsFile st content) |}])
  ∧ (∀ path name st before n entry after,
       filesUnder path name (FsDir st (inr (before ++ (n, entry) :: after)))
       = filesUnder path name (FsDir st (inr before))
         ++ match entry with
            | inl _ => []
            | inr (FsDir _ (inl _)) => []
            | inr child => filesUnder (path ++ [n]) n child
            end
         ++ filesUnder path name (FsDir st (inr after)))
  ∧ (err ≠ None → rootUnopenable root)
  ∧ (skipDirIsNil = false → rootUnopenable root → err = Some SkipDir).
Proof.
  cbv zeta. unfold makeIndex, Walk.
  assert (Hroot : ∃ log',
    match root with
    | inl err => makeIndexFn ([], []) [] (LstatFailed err)
    | inr node => walk makeIndexFn [] (rootName s) node ([], [])
    end
    = ((match root with
        | inl _ => []
        | inr node => filesUnder [] (rootName s) node
        end, log'),
       match root with
       | inl _ => Some SkipDir
       | inr node => walkResult node
       end)).
  { destruct root as [err|node].
    - by exists [LogVisit []].
    - destruct (walk_makeIndexFn node [] (rootName s) [] []) as [log' Hw].
      exists log'. by rewrite Hw. }
  destruct Hroot as [log' ->].
  repeat apply conj.
  - by destruct root as [?|[|? [|]]], skipDirIsNil.
  - assert (Hfiles : Forall (λ item, fi_IsDir (Info item) = false)
              match root with
              | inl _ => []
              | inr node => filesUnder [] (rootName s) node
              end).
    { destruct root; [constructor | apply filesUnder_files]. }
    by destruct root as [?|[|? [|]]], skipDirIsNil.
  - reflexivity.
  - intros path name st before n entry after.
    rewrite !filesUnder_dir, map_app, concat_app. simpl. f_equal. f_equal.
    by destruct entry as [|[|? [|]]].
  - by destruct root as [?|[|? [|]]], skipDirIsNil.
  - intros ->. by destruct root as [?|[|? [|]]].
Qed.

Lemma C8_index_build_witness :
  rootUnopenable (inl EACCES)
  ∧ (makeIndex false (server0 docsIndex) (inl EACCES)).1.2 = Some SkipDir.
Proof.
  split; [exact I|].
  exact (proj2 (proj2 (proj2 (proj2 (proj2
    (C8_index_build_tolerates_walk_errors false (server0 docsIndex)
       (inl EACCES)))))) eq_refl I).
Defined.

(** ** ListingAggregator: folding *)

Lemma deepPathLoop_body fs basedir depth isDir name :
  deepPathLoop fs basedir depth isDir name
  = if decide (depth <= maxDepth ∧ isDir = true) then
      match fsReadDir fs (fsJoin basedir name) with
      | inr [finfo] =>
          if fi_IsDir finfo then
            deepPathLoop fs basedir (depth + 1) isDir
              (ToSlash (Join name (fi_Name finfo)))
          else name
      | _ => name
      end
    else name.
Proof. rewrite deepPathLoop_equation_1. by destruct (decide _). Qed.

(** From the value [depth] of the counter the loop descends at most
    [maxDepth + 1 - depth] times, each time into the only entry of the
    directory reached, which is a directory. *)
Lemma deepPathLoop_hops fs basedir (n : nat) :
  ∀ depth name,
    Z.to_nat (maxDepth + 1 - depth) = n →
    ∃ children,
      deepPathLoop fs basedir depth true name = extendName name children
      ∧ (length children ≤ n)%nat
      ∧ ∀ i child,
          children !! i = Some child →
          ∃ finfo,
            fsReadDir fs (fsJoin basedir (extendName name (take i children)))
            = inr [finfo]
            ∧ fi_IsDir finfo = true ∧ fi_Name finfo = child.
Proof.
  induction n as [|n IH]; intros depth name Hn;
    rewrite deepPathLoop_body.
  - case_decide as Hd; [unfold maxDepth in *; lia|].
    exists []. repeat split; [simpl; lia|]. intros i child Hi. done.
  - assert (Hstop : ∃ children : list string,
              name = extendName name children
              ∧ (length children ≤ S n)%nat
              ∧ ∀ i child, children !! i = Some child →
                  ∃ finfo,
                    fsReadDir fs
                      (fsJoin basedir (extendName name (take i children)))
                    = inr [finfo]
                    ∧ fi_IsDir finfo = true ∧ fi_Name finfo = child).
    { exists []. repeat split; [simpl; lia|]. intros i child Hi. done. }
    case_decide as Hd; [|exact Hstop].
    destruct (fsReadDir fs (fsJoin basedir name)) as [err|[|finfo [|? ?]]]
      eqn:Hread; try exact Hstop.
    destruct (fi_IsDir finfo) eqn:Hdir; [|exact Hstop].
    destruct (IH (depth + 1) (ToSlash (Join name (fi_Name finfo))))
      as (children & Hloop & Hlen & Hchildren); [lia|].
    exists (fi_Name finfo :: children). repeat split.
    + exact Hloop.
    + simpl. lia.
    + intros [|i] child Hi; simpl in Hi.
      * injection Hi as <-. exists finfo. done.
      * apply (Hchildren i child Hi).
Qed.

(** C6.  Folding goes one level further than five.  [deepPath] runs its
    loop for the values 0 to [maxDepth] of the counter, six times: in a
    chain of directories that are each the only child of the one before,
    [a] is shown as [a/b/c/d/e/f/g], six names beyond [a], and the listing
    carries that entry.  Everything else is as stated: the name is extended
    only by the single entry of the directory reached, when that entry is a
    directory, never more than six times, and [a/b/c/file.txt] is listed as
    the one entry [a/b/c]. *)
Theorem C6_deepPath_folds_six_levels :
  deepPath (fsOfTree chainTree) [] "a"
  = extendName "a" ["b"; "c"; "d"; "e"; "f"; "g"]
  ∧ deepPath (fsOfTree chainTree) [] "a" = "a/b/c/d/e/f/g"
  ∧ (∀ E : RegexpEngine,
       (hJSONList (server0 []) (fsOfTree chainTree) "" "" NoUser reCache0).1.1
       = ListOK [ {| h_Name := "a/b/c/d/e/f/g"; h_Path := "a/b/c/d/e/f/g";
                     h_Type := "dir"; h_Size := -1; h_ModTime := 0 |} ]
                (defaultAccessConf (server0 [])))
  ∧ (∀ fs basedir name,
       ∃ children,
         deepPath fs basedir name = extendName name children
         ∧ (length children ≤ 6)%nat)
  ∧ (∀ E : RegexpEngine,
       (hJSONList (server0 []) (fsOfTree foldTree) "" "" NoUser reCache0).1.1
       = ListOK [ {| h_Name := "a/b/c"; h_Path := "a/b/c";
                     h_Type := "dir"; h_Size := -1; h_ModTime := 0 |} ]
                (defaultAccessConf (server0 []))).
Proof.
  repeat apply conj.
  - reflexivity.
  - reflexivity.
  - intros E. vm_compute. reflexivity.
  - intros fs basedir name.
    destruct (deepPathLoop_hops fs basedir 6 0 name eq_refl)
      as (children & Hloop & Hlen & _).
    by exists children.
  - intros E. vm_compute. reflexivity.
Qed.

(** ** ListingAggregator: search results *)

Section ListingFacts.
Context `{RegexpEngine}.

(** The cut to fifty is [take 50]. *)
Lemma searchFileInfoMap_take s requestPath search :
  searchFileInfoMap s requestPath search
  = fold_left (storeMatch requestPath) (take 50 (findIndex s search)) ∅.
Proof.
  unfold searchFileInfoMap.
  destruct (50 <? length (findIndex s search))%nat eqn:Hlen; [done|].
  apply Nat.ltb_ge in Hlen. by rewrite take_ge.
Qed.

Section Store.
Variable requestPath : string.

Lemma store_lookup results m path info :
  fold_left (storeMatch requestPath) results m !! path = Some info →
  m !! path = Some info
  ∨ ∃ item, item ∈ results ∧ Path item = path ∧ Info item = info
            ∧ HasPrefix (Path item) requestPath = true.
Proof.
  revert m. induction results as [|item results IH]; intros m; simpl;
    [auto|].
  intros Hl. destruct (IH _ Hl) as [Hm|(item' & Hin & ? & ? & ?)].
  - unfold storeMatch in Hm.
    destruct (HasPrefix (Path item) requestPath) eqn:Hp; [|auto].
    rewrite lookup_insert in Hm. case_decide; [|auto].
    right. exists item. simplify_eq. repeat split; [left | done..].
  - right. exists item'. repeat split; [by right | done..].
Qed.

Lemma store_mono results m path :
  is_Some (m !! path) → is_Some (fold_left (storeMatch requestPath) results m !! path).
Proof.
  revert m. induction results as [|item results IH]; intros m; simpl;
    [auto|].
  intros Hs. apply IH. unfold storeMatch.
  destruct (HasPrefix (Path item) requestPath); [|done].
  rewrite lookup_insert. by case_decide.
Qed.

Lemma store_stored results m item :
  item ∈ results → HasPrefix (Path item) requestPath = true →
  is_Some (fold_left (storeMatch requestPath) results m !! Path item).
Proof.
  revert m. induction results as [|item' results IH]; intros m Hin Hp;
    [inversion Hin|].
  apply elem_of_cons in Hin as [<-|Hin]; simpl.
  - apply store_mono. unfold storeMatch. rewrite Hp.
    by rewrite lookup_insert_eq.
  - by apply IH.
Qed.

Lemma store_size results m :
  (size (fold_left (storeMatch requestPath) results m) ≤ size m + length results)%nat.
Proof.
  revert m. induction results as [|item results IH]; intros m; simpl;
    [lia|].
  etrans; [apply IH|]. unfold storeMatch.
  destruct (HasPrefix (Path item) requestPath); [|lia].
  rewrite map_size_insert. destruct (m !! Path item); simpl; lia.
Qed.
End Store.

(** The loop over the map keeps, in order, the elements whose base name
    passes the rules. *)
Lemma listLoop_spec fs auth localPath requestPath search entries :
  ∀ lrs rc log,
    cacheInv rc →
    (listLoop fs auth localPath requestPath search entries lrs rc log).1.1
    = Some (lrs ++
            map (λ pi, (fileEntry fs localPath requestPath search
                          pi.1 pi.2).1)
                (List.filter
                   (λ pi, firstMatch (AccessTables auth) (fi_Name pi.2))
                   entries)).
Proof.
  induction entries as [|[path info] entries IH]; intros lrs rc log Hinv;
    simpl.
  - by rewrite app_nil_r.
  - destruct (canAccessLoop_inv (AccessTables auth) (fi_Name info) rc Hinv)
      as (Hr & Hinv' & _).
    unfold canAccess.
    destruct (canAccessLoop (AccessTables auth) (fi_Name info) rc)
      as [ok rc'].
    simpl in Hr, Hinv'. subst ok.
    destruct (firstMatch (AccessTables auth) (fi_Name info)).
    + destruct (fileEntry fs localPath requestPath search path info)
        as [lr log'] eqn:He.
      rewrite (IH _ _ _ Hinv'). simpl. rewrite He. simpl.
      by rewrite <- app_assoc.
    + by apply IH.
Qed.

(** The listing for a query, as a function of the map taken from the
    index. *)
Lemma hJSONList_search s fs requestPath search r rc :
  search ≠ "" → cacheInv rc →
  ∃ auth,
    (hJSONList s fs requestPath search r rc).1.1
    = ListOK
        (map (λ pi, (fileEntry fs (underRoot requestPath) requestPath
                       search pi.1 pi.2).1)
             (List.filter
                (λ pi, firstMatch (AccessTables auth) (fi_Name pi.2))
                (map_to_list (searchFileInfoMap s requestPath search))))
        auth
    ∧ AccessTables auth = AccessTables (readAccessConf s fs requestPath).1.
Proof.
  intros Hsearch Hinv. unfold hJSONList.
  destruct (readAccessConf s fs requestPath) as [auth0 log0].
  rewrite decide_True by done.
  set (auth := {| Upload := _; Delete := canDelete _ r |}).
  exists auth. split; [|done].
  pose proof (listLoop_spec fs auth (underRoot requestPath) requestPath
                search (map_to_list (searchFileInfoMap s requestPath search))
                [] rc log0 Hinv) as Hloop.
  destruct (listLoop _ _ _ _ _ _ _ _ _) as [[lrs rc'] log'].
  simpl in Hloop. by subst lrs.
Qed.
End ListingFacts.

(** Fifty matches outside [docs] come first in the snapshot; the one match
    inside [docs] is the fifty-first and is cut off before the prefix is
    looked at.  Fewer than fifty matches carry the prefix, and the listing
    for [docs] is empty. *)
Lemma C5_counterexample :
  let s := server0 crowdedIndex in
  let withPrefix :=
    List.filter (λ item, HasPrefix (Path item) "docs") (findIndex s "f") in
  map Path withPrefix = ["docs/f"]
  ∧ (length withPrefix < 50)%nat
  ∧ (hJSONList (H := MiniRE.engine) s (fsOfTree foldTree) "docs" "f"
       NoUser reCache0).1.1
    = ListOK [] (defaultAccessConf s).
Proof.
  cbv zeta. split; [vm_compute; reflexivity|].
  split; [vm_compute; lia|]. vm_compute. reflexivity.
Qed.

(** C5, amended.  For a query that is not empty the listing takes the first
    50 matches of the index, in snapshot order, and keeps those whose path
    has the request path as a prefix; the index itself applies neither the
    cap nor the prefix.  So the listing never has more than 50 entries (a
    query with 80 matches gives 50), every entry stands for one of the first
    50 matches, and when the query has at most 50 matches in all, every
    match with the prefix is taken, and is listed when its base name passes
    the rules of the policy. *)
Theorem C5_search_cap_then_prefix
    (E : RegexpEngine) (calls : list (AccessConf * string))
    (s : HTTPStaticServer) (fs : FileSystem)
    (requestPath search : string) (r : Request) :
  search ≠ "" →
  let rc := (canAccessCalls calls reCache0).2 in
  let taken := searchFileInfoMap s requestPath search in
  let first50 := take 50 (findIndex s search) in
  ∃ files auth,
    (hJSONList s fs requestPath search r rc).1.1 = ListOK files auth
    ∧ (length files ≤ 50)%nat
    ∧ (∀ path info,
         taken !! path = Some info →
         ∃ item, item ∈ first50 ∧ Path item = path ∧ Info item = info
                 ∧ HasPrefix path requestPath = true)
    ∧ (∀ item,
         item ∈ first50 → HasPrefix (Path item) requestPath = true →
         is_Some (taken !! Path item))
    ∧ (∀ lr, lr ∈ files →
         ∃ path info,
           taken !! path = Some info
           ∧ firstMatch (AccessTables auth) (fi_Name info) = true
           ∧ lr = (fileEntry fs (underRoot requestPath) requestPath search
                     path info).1)
    ∧ (∀ path info,
         taken !! path = Some info →
         firstMatch (AccessTables auth) (fi_Name info) = true →
         (fileEntry fs (underRoot requestPath) requestPath search
            path info).1 ∈ files)
    ∧ ((length (findIndex s search) ≤ 50)%nat →
       ∀ item,
         item ∈ findIndex s search →
         HasPrefix (Path item) requestPath = true →
         is_Some (taken !! Path item))
    ∧ length (findIndex (server0 eightyIndex) "f") = 80%nat
    ∧ size (searchFileInfoMap (server0 eightyIndex) "other" "f") = 50%nat.
Proof.
  intros Hsearch rc taken first50.
  assert (Hinv : cacheInv rc)
    by apply canAccessCalls_inv, cacheInv_reCache0.
  destruct (hJSONList_search s fs requestPath search r rc Hsearch Hinv)
    as (auth & Hlist & _).
  eexists _, auth. split; [exact Hlist|].
  assert (Htaken : taken = fold_left (storeMatch requestPath) first50 ∅)
    by apply searchFileInfoMap_take.
  assert (Hsize : (size taken ≤ 50)%nat).
  { rewrite Htaken. etrans; [apply store_size|].
    rewrite map_size_empty. subst first50. rewrite length_take. lia. }
  repeat apply conj.
  - rewrite length_map. etrans; [apply filter_length_le|].
    fold taken. by rewrite length_map_to_list.
  - intros path info Hl. rewrite Htaken in Hl.
    apply store_lookup in Hl as [Hl|(item & Hin & <- & Hi & Hp)];
      [by rewrite lookup_empty in Hl|].
    by exists item.
  - intros item Hin Hp. rewrite Htaken. by apply store_stored.
  - intros lr Hlr. apply list_elem_of_fmap in Hlr as ([path info] & -> & Hin).
    apply list_elem_of_In, filter_In in Hin as [Hin Hok].
    apply list_elem_of_In, elem_of_map_to_list in Hin.
    by exists path, info.
  - intros path info Hl Hok.
    apply (list_elem_of_fmap_2
             (λ pi, (fileEntry fs (underRoot requestPath) requestPath search
                       pi.1 pi.2).1) _ (path, info)).
    apply list_elem_of_In, filter_In. split; [|exact Hok].
    by apply list_elem_of_In, elem_of_map_to_list.
  - intros Hlen item Hin Hp. rewrite Htaken. apply store_stored; [|done].
    subst first50. by rewrite take_ge.
  - vm_compute. reflexivity.
  - vm_compute. reflexivity.
Qed.

Lemma C5_search_cap_witness :
  "f" ≠ ""
  ∧ ∃ files auth,
      (hJSONList (H := MiniRE.engine) (server0 eightyIndex)
         (fsOfTree foldTree) "other" "f" NoUser
         (canAccessCalls [] reCache0).2).1.1 = ListOK files auth
      ∧ (length files ≤ 50)%nat.
Proof.
  split; [discriminate|].
  destruct (C5_search_cap_then_prefix MiniRE.engine [] (server0 eightyIndex)
              (fsOfTree foldTree) "other" "f" NoUser)
    as (files & auth & Hlist & Hlen & _); [discriminate|].
  exists files, auth. split; [exact Hlist | exact Hlen].
Defined.


(** * Further properties *)

(** ** Resolution: which sidecar decides *)

Lemma prefix_snoc_cases {A} (q p : list A) (c : A) :
  q `prefix_of` p ++ [c] → q = p ++ [c] ∨ q `prefix_of` p.
Proof.
  intros [k Hk]. destruct k as [|x k _] using rev_ind.
  - left. by rewrite app_nil_r in Hk.
  - right. rewrite app_assoc in Hk. apply app_inj_tail in Hk as [-> _].
    by exists k.
Qed.

Section FieldResolution.
Context {A : Type} (field : YamlDoc → option A) (proj : AccessConf → A).
Hypothesis decoded :
  ∀ data ac, proj (Unmarshal data ac).1 = default (proj ac) (field data).

(** One level: the field of the sidecar if it sets one, else what came
    down. *)
Lemma readSidecar_field fs p parent log :
  proj (readSidecar fs p parent log).1
  = default (proj parent) (sidecarField field fs p).
Proof.
  pose proof (readSidecar_overlay fs p parent log) as Hl.
  unfold sidecarField.
  destruct (sidecarData fs p) as [data|]; rewrite Hl; simpl; [apply decoded|done].
Qed.

Lemma readAccessConfAt_field_none s fs p :
  noSidecarSets field fs p →
  proj (readAccessConfAt s fs p).1 = proj (defaultAccessConf s).
Proof.
  induction p as [|c p IH] using rev_ind; intros Hnone.
  - rewrite readAccessConfAt_root, readSidecar_field.
    by rewrite (Hnone [] (prefix_nil _)).
  - rewrite readAccessConfAt_snoc.
    destruct (readAccessConfAt s fs p) as [ac log]. simpl in IH.
    rewrite readSidecar_field, (Hnone (p ++ [c])) by reflexivity. simpl.
    apply IH. intros q Hq. apply Hnone. by apply prefix_app_r.
Qed.

Lemma readAccessConfAt_field_nearest s fs p q v :
  nearestSidecar field fs p q v →
  proj (readAccessConfAt s fs p).1 = v.
Proof.
  induction p as [|c p IH] using rev_ind; intros (Hq & Hset & Hbelow).
  - apply prefix_nil_inv in Hq as ->.
    rewrite readAccessConfAt_root, readSidecar_field. by rewrite Hset.
  - rewrite readAccessConfAt_snoc.
    destruct (readAccessConfAt s fs p) as [ac log]. simpl in IH.
    rewrite readSidecar_field.
    apply prefix_snoc_cases in Hq as [->|Hq].
    + by rewrite Hset.
    + assert (Hlen : (length q < length (p ++ [c]))%nat).
      { apply prefix_length in Hq. rewrite length_app. simpl. lia. }
      rewrite (Hbelow (p ++ [c])) by done. simpl. apply IH.
      repeat split; [done..|]. intros q' Hq' Hlt. apply Hbelow; [|done].
      by apply prefix_app_r.
Qed.
End FieldResolution.

(** X1.  The nearest sidecar decides, field by field: the resolved value of
    a field is the one set by the deepest sidecar on the way from the root
    that sets it, whatever the sidecars above it say. *)
Theorem nearest_sidecar_decides_each_field
    (s : HTTPStaticServer) (fs : FileSystem) (p q : CleanPath) :
  let ac := (readAccessConfAt s fs p).1 in
  (∀ v, nearestSidecar docUpload fs p q v → Upload ac = v)
  ∧ (∀ v, nearestSidecar docDelete fs p q v → Delete ac = v)
  ∧ (∀ v, nearestSidecar docUsers fs p q v → Users ac = v)
  ∧ (∀ v, nearestSidecar docAccessTables fs p q v → AccessTables ac = v).
Proof.
  cbv zeta. repeat apply conj; intros v;
    apply readAccessConfAt_field_nearest; by intros [|u d us ts e] ac.
Qed.

Lemma nearest_sidecar_witness :
  nearestSidecar docUpload (fsOfTree overlayTree) ["a"; "b"] ["a"] true
  ∧ Upload (readAccessConfAt (server0 []) (fsOfTree overlayTree)
              ["a"; "b"]).1 = true.
Proof.
  assert (Hn : nearestSidecar docUpload (fsOfTree overlayTree)
                 ["a"; "b"] ["a"] true).
  { split; [by exists ["b"]|]. split; [reflexivity|].
    intros q' [k Hk] Hlen.
    destruct q' as [|c1 [|c2 [|c3 q']]]; simpl in Hlen; try lia;
      simplify_eq/=; reflexivity. }
  split; [exact Hn|].
  exact (proj1 (nearest_sidecar_decides_each_field (server0 [])
                  (fsOfTree overlayTree) ["a"; "b"] ["a"]) true Hn).
Defined.

(** X2.  A field that no sidecar on the way sets keeps its default: the
    upload flag of the server, no deletion, no user overrides, no rules. *)
Theorem unset_fields_keep_defaults
    (s : HTTPStaticServer) (fs : FileSystem) (p : CleanPath) :
  let ac := (readAccessConfAt s fs p).1 in
  (noSidecarSets docUpload fs p → Upload ac = s_Upload s)
  ∧ (noSidecarSets docDelete fs p → Delete ac = false)
  ∧ (noSidecarSets docUsers fs p → Users ac = [])
  ∧ (noSidecarSets docAccessTables fs p → AccessTables ac = []).
Proof.
  cbv zeta. repeat apply conj; intros Hn.
  - by rewrite (readAccessConfAt_field_none docUpload Upload)
      by (done || by intros [|u d us ts e] ac).
  - by rewrite (readAccessConfAt_field_none docDelete Delete)
      by (done || by intros [|u d us ts e] ac).
  - by rewrite (readAccessConfAt_field_none docUsers Users)
      by (done || by intros [|u d us ts e] ac).
  - by rewrite (readAccessConfAt_field_none docAccessTables AccessTables)
      by (done || by intros [|u d us ts e] ac).
Qed.

Lemma unset_fields_witness :
  noSidecarSets docDelete (fsOfTree overlayTree) ["a"; "b"]
  ∧ Delete (readAccessConfAt (server0 []) (fsOfTree overlayTree)
              ["a"; "b"]).1 = false.
Proof.
  assert (Hn : noSidecarSets docDelete (fsOfTree overlayTree) ["a"; "b"]).
  { intros q [k Hk].
    destruct q as [|c1 [|c2 [|c3 q]]]; simplify_eq/=; reflexivity. }
  split; [exact Hn|].
  exact (proj1 (proj2 (unset_fields_keep_defaults (server0 [])
                         (fsOfTree overlayTree) ["a"; "b"])) Hn).
Defined.

(** ** Resolution: a file and its directory *)

Lemma Unmarshal_idempotent data ac :
  (Unmarshal data (Unmarshal data ac).1).1 = (Unmarshal data ac).1.
Proof. by destruct data as [|[u|] [d|] [us|] [ts|] e]. Qed.

Lemma fsDir_snoc d name : name ≠ ".." → fsDir (d ++ [name]) = d.
Proof.
  intros Hname. unfold fsDir.
  rewrite forallb_app. cbn [forallb].
  destruct (String.eqb_spec ".." name) as [E|_]; [congruence|].
  rewrite andb_false_r. apply removelast_last.
Qed.

(** X3.  A regular file has the policy of the directory that holds it: its
    level consults the sidecar of that directory once more, and decoding the
    same sidecar twice changes nothing. *)
Theorem file_has_policy_of_its_directory
    (s : HTTPStaticServer) (fs : FileSystem) (d : CleanPath) (name : string) :
  fsIsFile fs (d ++ [name]) = true →
  fsIsFile fs d = false →
  name ≠ ".." →
  (readAccessConfAt s fs (d ++ [name])).1 = (readAccessConfAt s fs d).1.
Proof.
  intros Hfile Hdir Hname.
  assert (Hcfg : cfgFileOf fs (d ++ [name]) = cfgFileOf fs d).
  { unfold cfgFileOf. by rewrite Hfile, Hdir, fsDir_snoc. }
  assert (Hdata : sidecarData fs (d ++ [name]) = sidecarData fs d).
  { unfold sidecarData. by rewrite Hcfg. }
  rewrite readAccessConfAt_snoc, (readAccessConfAt_level s fs d).
  destruct (parentResolved s fs d) as [pac plog].
  pose proof (readSidecar_overlay fs d pac plog) as Hd.
  destruct (readSidecar fs d pac plog) as [ac log]. simpl in Hd.
  pose proof (readSidecar_overlay fs (d ++ [name]) ac log) as Hf.
  rewrite Hdata in Hf.
  destruct (sidecarData fs d) as [data|]; rewrite Hf; simpl; [|done].
  rewrite Hd. apply Unmarshal_idempotent.
Qed.

Lemma file_policy_witness :
  fsIsFile (fsOfTree foldTree) (["a"; "b"; "c"] ++ ["file.txt"]) = true
  ∧ (readAccessConfAt (server0 []) (fsOfTree foldTree)
       (["a"; "b"; "c"] ++ ["file.txt"])).1
    = (readAccessConfAt (server0 []) (fsOfTree foldTree) ["a"; "b"; "c"]).1.
Proof.
  split; [reflexivity|].
  apply (file_has_policy_of_its_directory (server0 [])
           (fsOfTree foldTree) ["a"; "b"; "c"] "file.txt");
    [reflexivity | reflexivity | discriminate].
Defined.

(** ** Identity: the user overrides *)

Lemma firstUser_first users email i rule :
  users !! i = Some rule →
  Email rule = email →
  (∀ j rule', (j < i)%nat → users !! j = Some rule' → Email rule' ≠ email) →
  firstUser users email = Some rule.
Proof.
  revert i. induction users as [|r users IH]; intros i Hi Hm Hbefore; [done|].
  destruct i as [|i]; simpl in *.
  - injection Hi as ->. by rewrite decide_True.
  - rewrite decide_False by (apply (Hbefore 0%nat); [lia | done]).
    apply (IH i); auto. intros j r' Hj Hr'. apply (Hbefore (S j)); [lia | done].
Qed.

Lemma firstUser_None users email :
  (∀ rule, rule ∈ users → Email rule ≠ email) → firstUser users email = None.
Proof.
  induction users as [|r users IH]; intros Hno; simpl; [done|].
  rewrite decide_False by (apply Hno; left).
  apply IH. intros r' Hr'. apply Hno. by right.
Qed.

(** X4.  User overrides: for a caller with an identity the first entry of
    the user list with the caller's e-mail decides both upload and delete,
    later entries for the same e-mail are not looked at, and the flags of
    the policy itself are not looked at either.  A caller without a listed
    e-mail, without an identity, or whose session cannot be read, gets the
    flags of the policy. *)
Theorem first_user_entry_overrides_policy
    (c : AccessConf) (userInfo : UserInfo) :
  (∀ i rule,
     Users c !! i = Some rule →
     Email rule = ui_Email userInfo →
     (∀ j rule', (j < i)%nat → Users c !! j = Some rule' →
                 Email rule' ≠ ui_Email userInfo) →
     canUpload c (LoggedIn userInfo) = u_Upload rule
     ∧ canDelete c (LoggedIn userInfo) = u_Delete rule)
  ∧ ((∀ rule, rule ∈ Users c → Email rule ≠ ui_Email userInfo) →
     canUpload c (LoggedIn userInfo) = Upload c
     ∧ canDelete c (LoggedIn userInfo) = Delete c)
  ∧ (canUpload c NoUser = Upload c ∧ canDelete c NoUser = Delete c)
  ∧ (canUpload c SessionError = Upload c
     ∧ canDelete c SessionError = Delete c).
Proof.
  repeat split.
  - simpl. by erewrite firstUser_first.
  - simpl. by erewrite firstUser_first.
  - simpl. by rewrite firstUser_None.
  - simpl. by rewrite firstUser_None.
Qed.

Lemma first_user_entry_witness :
  let c := {| Upload := false; Delete := false;
              Users := [ {| Email := "a@x.org"; u_Upload := true;
                            u_Delete := false |};
                         {| Email := "a@x.org"; u_Upload := false;
                            u_Delete := true |} ];
              AccessTables := [] |} in
  canUpload c (LoggedIn {| ui_Email := "a@x.org" |}) = true
  ∧ canDelete c (LoggedIn {| ui_Email := "a@x.org" |}) = false.
Proof.
  cbv zeta.
  refine (proj1 (first_user_entry_overrides_policy _ {| ui_Email := "a@x.org" |})
            0%nat {| Email := "a@x.org"; u_Upload := true; u_Delete := false |}
            _ _ _).
  - reflexivity.
  - reflexivity.
  - intros j rule' Hj. lia.
Defined.

(** ** [hUpload] *)

Lemma uploadLoop_spec env path files :
  ∀ created log,
    ∃ n log',
      (n ≤ length files)%nat
      ∧ (uploadLoop env (underRoot path) files created log).1.2
        = created ++ map (uploadTarget path) (take n files)
      ∧ (uploadLoop env (underRoot path) files created log).2 = log ++ log'
      ∧ Forall (partCreated env path) (take n files)
      ∧ Forall (partStored env path) (take (pred n) files)
      ∧ ((uploadLoop env (underRoot path) files created log).1.1
         = {| status := 200; body := "Upload success" |}
         ∧ n = length files ∧ Forall (partStored env path) files ∧ log' = []
         ∨ status (uploadLoop env (underRoot path) files created log).1.1 = 500
           ∧ ¬ Forall (partStored env path) files).
Proof.
  induction files as [|mfile files IH]; intros created log; simpl.
  - exists 0%nat, []. rewrite !app_nil_r. repeat split; auto.
  - destruct (fh_Open mfile) as [err|] eqn:Hopen.
    { exists 0%nat, []. simpl. rewrite !app_nil_r.
      repeat split; auto with lia. right. split; [done|].
      intros Hall. inversion Hall as [|? ? (Ho & _) _]. congruence. }
    fold (uploadTarget path mfile).
    destruct (up_Create env (uploadTarget path mfile)) as [err|] eqn:Hcreate.
    { exists 0%nat, []. simpl. rewrite !app_nil_r.
      repeat split; auto with lia. right. split; [done|].
      intros Hall. inversion Hall as [|? ? (_ & Hc & _) _]. congruence. }
    destruct (up_Copy env (uploadTarget path mfile)) as [err|] eqn:Hcopy.
    { exists 1%nat, [err]. simpl. repeat split; auto with lia.
      - repeat constructor; done.
      - right. split; [done|].
        intros Hall. inversion Hall as [|? ? (_ & _ & Hc) _]. congruence. }
    destruct (IH (created ++ [uploadTarget path mfile]) log)
      as (n & log' & Hn & Hcreated & Hlog & Hc & Hs & Hres).
    exists (S n), log'. simpl. rewrite Hcreated, Hlog, <- app_assoc. simpl.
    repeat split; auto with lia.
    + constructor; [done | done].
    + destruct n as [|n]; simpl in *; [constructor|].
      constructor; [done | done].
    + destruct Hres as [(Hok & -> & Hall & ->)|(H500 & Hnot)].
      * left. repeat split; auto. constructor; [done | done].
      * right. split; [done|]. intros Hall. apply Hnot.
        by inversion Hall.
Qed.

(** X5.  Uploads are stored part by part and never rolled back.  A caller
    who may not upload gets 403 and nothing is created.  Otherwise the files
    created are those of the leading parts of the form, in order; the answer
    is the success only when the form has a part and every part was opened,
    created and copied; on a failure the answer is 500 and the files created
    before it, and the one whose copy failed, stay in place. *)
Theorem upload_stores_a_prefix_of_the_parts
    (s : HTTPStaticServer) (fs : FileSystem) (env : UploadEnv)
    (path : string) (req : Request) (form : MultipartForm) :
  let resp := (hUpload s fs env path req form).1.1 in
  let created := (hUpload s fs env path req form).1.2 in
  (canUpload (readAccessConf s fs path).1 req = false →
   resp = {| status := 403; body := "Upload forbidden" |} ∧ created = [])
  ∧ (∀ message, form = ParseFailed message → created = [])
  ∧ (∀ files,
       form = Parsed files →
       ∃ n, (n ≤ length files)%nat
            ∧ created = map (uploadTarget path) (take n files)
            ∧ Forall (partCreated env path) (take n files)
            ∧ Forall (partStored env path) (take (pred n) files)
            ∧ (status resp = 200 →
               files ≠ [] ∧ n = length files
               ∧ Forall (partStored env path) files))
  ∧ (∀ files,
       canUpload (readAccessConf s fs path).1 req = true →
       form = Parsed files → files ≠ [] →
       Forall (partStored env path) files →
       resp = {| status := 200; body := "Upload success" |}
       ∧ created = map (uploadTarget path) files).
Proof.
  cbv zeta. unfold hUpload.
  destruct (readAccessConf s fs path) as [auth log0]. simpl.
  destruct (canUpload auth req) eqn:Hcan; simpl.
  - split; [done|]. split; [by intros message ->|]. split.
    + intros files ->. destruct (decide (length files = 0%nat)) as [Hz|Hnz].
      { exists 0%nat. simpl. repeat split; auto with lia; done. }
      destruct (uploadLoop_spec env path files [] [])
        as (n & log' & Hn & Hcreated & _ & Hc & Hs & Hres).
      exists n. repeat split; auto.
      * intros ->. by apply Hnz.
      * destruct Hres as [(_ & -> & _)|(H500 & _)]; [done|]. congruence.
      * destruct Hres as [(_ & _ & Hall & _)|(H500 & _)]; [done|]. congruence.
    + intros files _ -> Hne Hall.
      rewrite decide_False by (by destruct files).
      destruct (uploadLoop_spec env path files [] [])
        as (n & log' & Hn & Hcreated & _ & _ & _ & Hres).
      destruct Hres as [(Hok & -> & _)|(_ & Hnot)]; [|done].
      split; [done|]. by rewrite Hcreated, take_ge.
  - split; [done|]. split; [done|]. split; [|done].
    intros files _. exists 0%nat. simpl. repeat split; auto with lia; done.
Qed.

Lemma upload_prefix_witness :
  canUpload (readAccessConf (server0 []) (fsOfTree foldTree) "a").1 NoUser
  = false
  ∧ (hUpload (server0 []) (fsOfTree foldTree)
       {| up_Create := λ _, None; up_Copy := λ _, None |} "a" NoUser
       (Parsed [ {| Filename := "x.txt"; fh_Open := None |} ])).1.2 = [].
Proof.
  split; [reflexivity|].
  exact (proj2 (proj1 (upload_stores_a_prefix_of_the_parts (server0 [])
    (fsOfTree foldTree) {| up_Create := λ _, None; up_Copy := λ _, None |}
    "a" NoUser (Parsed [ {| Filename := "x.txt"; fh_Open := None |} ]))
    eq_refl)).
Defined.

(** ** The listing and the gates of the mutation handlers *)

Lemma hJSONList_auth `{RegexpEngine} s fs requestPath search r rc files auth :
  (hJSONList s fs requestPath search r rc).1.1 = ListOK files auth →
  auth = {| Upload := canUpload (readAccessConf s fs requestPath).1 r;
            Delete := canDelete (readAccessConf s fs requestPath).1 r;
            Users := Users (readAccessConf s fs requestPath).1;
            AccessTables := AccessTables (readAccessConf s fs requestPath).1 |}.
Proof.
  unfold hJSONList.
  destruct (readAccessConf s fs requestPath) as [ac log0]. simpl.
  match goal with
  | |- context [match ?m with inl _ => _ | inr _ => _ end] =>
      destruct m as [err|fileInfoMap]
  end; [done|].
  destruct (listLoop _ _ _ _ _ _ _ _ _) as [[[lrs|] rc'] log']; [|done].
  simpl. intros [= _ <-]. f_equal; by destruct r.
Qed.

(** X6.  The permissions a listing shows are the ones the handlers enforce:
    whenever [hJSONList] answers with a listing for a path, its [upload]
    flag is false exactly when [hUpload] answers 403 for that path and
    caller, and its [delete] flag is false exactly when [hDelete] does; the
    user list and the rules are passed on as resolved. *)
Theorem listing_shows_the_enforced_permissions
    (E : RegexpEngine) (s : HTTPStaticServer) (fs : FileSystem)
    (requestPath search : string) (r : Request) (rc : ReCache)
    (files : list HTTPFileInfo) (auth : AccessConf)
    (env : UploadEnv) (form : MultipartForm)
    (remove : CleanPath → option OsError) :
  (hJSONList s fs requestPath search r rc).1.1 = ListOK files auth →
  (Upload auth = false ↔
   (hUpload s fs env requestPath r form).1.1
   = {| status := 403; body := "Upload forbidden" |})
  ∧ (Delete auth = false ↔
     (hDelete s fs remove requestPath r).1
     = {| status := 403; body := "Delete forbidden" |})
  ∧ Users auth = Users (readAccessConf s fs requestPath).1
  ∧ AccessTables auth = AccessTables (readAccessConf s fs requestPath).1.
Proof.
  intros Hlist. apply hJSONList_auth in Hlist as ->. simpl.
  unfold hUpload, hDelete.
  destruct (readAccessConf s fs requestPath) as [ac log0]. simpl.
  repeat split.
  - by intros ->.
  - destruct (canUpload ac r); [|done]. simpl.
    destruct form as [message|files']; [done|].
    destruct (decide _) as [Hz|Hnz]; [done|].
    destruct (uploadLoop_spec env requestPath files' [] [])
      as (k & log' & _ & _ & _ & _ & _ & [(-> & _)|(H500 & _)]); [done|].
    intros Hr. rewrite Hr in H500. done.
  - by intros ->.
  - destruct (canDelete ac r); [|done]. simpl.
    by destruct (remove (underRoot requestPath)).
Qed.

Lemma listing_permissions_witness :
  (hJSONList (H := MiniRE.engine) (server0 []) (fsOfTree foldTree) "a" ""
     NoUser reCache0).1.1
  = ListOK [ {| h_Name := "b/c"; h_Path := "a/b/c"; h_Type := "dir";
                h_Size := -1; h_ModTime := 0 |} ]
           (defaultAccessConf (server0 []))
  ∧ (hDelete (server0 []) (fsOfTree foldTree) (λ _, None) "a" NoUser).1
    = {| status := 403; body := "Delete forbidden" |}.
Proof.
  assert (Hl : (hJSONList (H := MiniRE.engine) (server0 []) (fsOfTree foldTree)
                  "a" "" NoUser reCache0).1.1
               = ListOK [ {| h_Name := "b/c"; h_Path := "a/b/c";
                             h_Type := "dir"; h_Size := -1; h_ModTime := 0 |} ]
                        (defaultAccessConf (server0 [])))
    by (vm_compute; reflexivity).
  split; [exact Hl|].
  exact (proj1 (proj1 (proj2 (listing_shows_the_enforced_permissions
    MiniRE.engine (server0 []) (fsOfTree foldTree) "a" "" NoUser reCache0
    _ _ {| up_Create := λ _, None; up_Copy := λ _, None |} (Parsed [])
    (λ _, None) Hl))) eq_refl).
Defined.

(** ** [NewHTTPStaticServer] *)

Lemma HasSuffix_append_slash s : HasSuffix (s +:+ "/") "/" = true.
Proof.
  induction s as [|c s IH]; [done|].
  change (String c s +:+ "/") with (String c (s +:+ "/")).
  cbn [HasSuffix]. rewrite IH. apply orb_true_r.
Qed.

(** X7.  A new server has a root that ends in a slash: an empty root
    becomes [./], a root with the slash is kept, any other root gets one
    appended, and building a server from that root again changes nothing.
    It starts with uploads and deletions switched off, so under a tree
    without sidecars on the way both handlers answer 403 to every caller. *)
Theorem new_server_root_and_defaults (root : string) :
  let s := NewHTTPStaticServer root in
  HasSuffix (Root s) "/" = true
  ∧ (HasSuffix root "/" = true → Root s = root)
  ∧ (root ≠ "" → HasSuffix root "/" = false → Root s = root +:+ "/")
  ∧ Root (NewHTTPStaticServer "") = "./"
  ∧ NewHTTPStaticServer (Root s) = s
  ∧ (∀ fs env remove path req form,
       (∀ q, q `prefix_of` Clean path → sidecarData fs q = None) →
       (hUpload s fs env path req form).1
       = ({| status := 403; body := "Upload forbidden" |}, [])
       ∧ hDelete s fs remove path req
         = ({| status := 403; body := "Delete forbidden" |}, [])).
Proof.
  cbv zeta.
  assert (Hend : HasSuffix (Root (NewHTTPStaticServer root)) "/" = true).
  { unfold NewHTTPStaticServer, ToSlash. simpl.
    destruct (decide (root = "")) as [->|Hne]; [done|].
    destruct (HasSuffix root "/") eqn:Hs; simpl; [done|].
    apply HasSuffix_append_slash. }
  assert (Hkeep : ∀ r, HasSuffix r "/" = true →
                       NewHTTPStaticServer r
                       = {| Root := r; s_Upload := false; s_Delete := false;
                            indexes := [] |}).
  { intros r Hr. unfold NewHTTPStaticServer, ToSlash.
    destruct (decide (r = "")) as [->|Hne]; [done|]. by rewrite Hr. }
  repeat apply conj.
  - exact Hend.
  - intros Hs. by rewrite Hkeep.
  - intros Hne Hs. unfold NewHTTPStaticServer, ToSlash.
    rewrite decide_False by done. by rewrite Hs.
  - reflexivity.
  - rewrite (Hkeep _ Hend). reflexivity.
  - intros fs env remove path req form Hnone.
    pose proof (readAccessConfAt_no_sidecar (NewHTTPStaticServer root) fs
                  (Clean path) Hnone) as Hdef.
    unfold hUpload, hDelete, readAccessConf.
    destruct (readAccessConfAt (NewHTTPStaticServer root) fs (Clean path))
      as [ac log0]. simpl in Hdef. subst ac.
    split; by destruct req.
Qed.

Lemma new_server_witness :
  HasSuffix "/srv/www/" "/" = true
  ∧ Root (NewHTTPStaticServer "/srv/www/") = "/srv/www/".
Proof.
  split; [reflexivity|].
  exact (proj1 (proj2 (new_server_root_and_defaults "/srv/www/")) eq_refl).
Defined.

(** ** Search: how queries compose *)

Lemma findIndex_filter s text :
  findIndex s text
  = List.filter (λ item, forallb (tokenSucceeds (Path item)) (Fields text))
      (indexes s).
Proof. apply (findIndexLoop_filter _ _ []). Qed.

Lemma Fields_cons c s :
  Fields (String c s)
  = if isSpace c then Fields s
    else match s with
         | EmptyString => [String c EmptyString]
         | String d _ =>
             if isSpace d then String c EmptyString :: Fields s
             else match Fields s with
                  | h :: t => String c h :: t
                  | [] => [String c EmptyString]
                  end
         end.
Proof. reflexivity. Qed.

Lemma Fields_head_not_space c s :
  isSpace c = false → Fields (String c s) ≠ [].
Proof.
  intros Hc. rewrite Fields_cons, Hc.
  destruct s as [|d s]; [done|].
  destruct (isSpace d); [done|]. by destruct (Fields (String d s)).
Qed.

(** The fields of two texts joined by white space are the fields of the
    one followed by the fields of the other. *)
Lemma Fields_app a sp b :
  isSpace sp = true → Fields (a +:+ String sp b) = Fields a ++ Fields b.
Proof.
  intros Hsp. induction a as [|c a IH].
  - simpl. by rewrite Hsp.
  - change (String c a +:+ String sp b) with (String c (a +:+ String sp b)).
    rewrite (Fields_cons c (a +:+ String sp b)), (Fields_cons c a).
    destruct (isSpace c) eqn:Hc; [exact IH|].
    destruct a as [|d a'].
    + change ("" +:+ String sp b) with (String sp b).
      cbv match. by rewrite Hsp, Fields_cons, Hsp.
    + change (String d a' +:+ String sp b)
        with (String d (a' +:+ String sp b)) in *.
      cbv match. rewrite IH.
      destruct (isSpace d) eqn:Hd; [done|].
      pose proof (Fields_head_not_space d a' Hd) as Hne.
      by destruct (Fields (String d a')).
Qed.

Lemma filter_forallb_app {A B} (f : A → B → bool) (l : list A) (k1 k2 : list B) :
  List.filter (λ x, forallb (f x) (k1 ++ k2)) l
  = List.filter (λ x, forallb (f x) k2) (List.filter (λ x, forallb (f x) k1) l).
Proof.
  induction l as [|x l IH]; simpl; [done|].
  rewrite forallb_app.
  destruct (forallb (f x) k1); simpl; [|done].
  destruct (forallb (f x) k2); by rewrite IH.
Qed.

(** X8.  White space is AND: the result of two queries joined by white
    space is the result of the second query run on the result of the first,
    so an entry is found exactly when both queries find it. *)
Theorem search_joined_queries_intersect
    (s : HTTPStaticServer) (q1 q2 : string) (sp : ascii) :
  isSpace sp = true →
  findIndex s (q1 +:+ String sp q2)
  = findIndex {| Root := Root s; s_Upload := s_Upload s;
                 s_Delete := s_Delete s; indexes := findIndex s q1 |} q2
  ∧ ∀ item, item ∈ findIndex s (q1 +:+ String sp q2) ↔
            item ∈ findIndex s q1 ∧ item ∈ findIndex s q2.
Proof.
  intros Hsp.
  assert (Heq : findIndex s (q1 +:+ String sp q2)
    = findIndex {| Root := Root s; s_Upload := s_Upload s;
                   s_Delete := s_Delete s; indexes := findIndex s q1 |} q2).
  { rewrite !findIndex_filter, Fields_app by done. simpl.
    apply (filter_forallb_app (λ item, tokenSucceeds (Path item))). }
  split; [exact Heq|]. intros item.
  rewrite Heq, !findIndex_filter. simpl.
  rewrite !list_elem_of_In, !filter_In. tauto.
Qed.

Lemma search_joined_witness :
  isSpace " " = true
  ∧ findIndex (server0 docsIndex) ("docs" +:+ String " " "-notes")
    = findIndex (server0 (findIndex (server0 docsIndex) "docs")) "-notes".
Proof.
  split; [reflexivity|].
  exact (proj1 (search_joined_queries_intersect (server0 docsIndex)
                  "docs" "-notes" " " eq_refl)).
Defined.

(** X9.  A query with nothing to look for finds everything: when the query
    is empty or white space, or its only tokens are single dashes, the
    result is the whole snapshot. *)
Theorem search_blank_query_returns_snapshot
    (s : HTTPStaticServer) (text : string) :
  (∀ token, token ∈ Fields text → token = "-") →
  findIndex s text = indexes s.
Proof.
  intros Hblank. rewrite findIndex_filter.
  assert (Hall : ∀ path, forallb (tokenSucceeds path) (Fields text) = true).
  { intros path. apply forallb_forall. intros token Hin%list_elem_of_In.
    by rewrite (Hblank token Hin). }
  induction (indexes s) as [|item items IH]; simpl; [done|].
  by rewrite Hall, IH.
Qed.

Lemma search_blank_witness :
  (∀ token, token ∈ Fields "  - " → token = "-")
  ∧ findIndex (server0 docsIndex) "  - " = docsIndex.
Proof.
  assert (Hb : ∀ token, token ∈ Fields "  - " → token = "-").
  { intros token Hin. simpl in Hin.
    by apply list_elem_of_singleton in Hin. }
  split; [exact Hb|].
  exact (search_blank_query_returns_snapshot (server0 docsIndex) "  - " Hb).
Defined.

Lemma isToken_dash token : isToken token → isToken (String "-" token).
Proof. intros [Hne Hfree]. split; [done|]. simpl. by rewrite Hfree. Qed.

(** X10.  A dash negates: for a word that does not itself start with a
    dash, every entry of the snapshot is found either by the word or by the
    word with a dash in front, never by both. *)
Theorem search_dash_is_the_complement
    (s : HTTPStaticServer) (word : string) (item : IndexFileItem) :
  isToken word → HasPrefix word "-" = false →
  item ∈ indexes s →
  (item ∈ findIndex s word ↔ item ∉ findIndex s (String "-" word))
  ∧ (item ∈ findIndex s word ↔
     Contains (ToLower (Path item)) (ToLower word) = true).
Proof.
  intros Htok Hdash Hin.
  assert (Hne : word ≠ "") by apply Htok.
  rewrite !findIndex_filter, (Fields_token word Htok),
    (Fields_token _ (isToken_dash word Htok)).
  rewrite !list_elem_of_In, !filter_In, <- !list_elem_of_In. simpl.
  unfold tokenSucceeds at 1 3. rewrite Hdash, decide_False by done.
  unfold tokenSucceeds.
  assert (HasPrefix (String "-" word) "-" = true) as ->
    by (by destruct word).
  simpl. rewrite decide_False by done. unfold containsFold.
  destruct (Contains (ToLower (Path item)) (ToLower word)); simpl;
    intuition congruence.
Qed.

Lemma search_dash_witness :
  isToken "notes" ∧ HasPrefix "notes" "-" = false
  ∧ ({| Path := "docs/notes.txt"; Info := plainFile "notes.txt" |}
       ∈ findIndex (server0 docsIndex) "notes" ↔
     {| Path := "docs/notes.txt"; Info := plainFile "notes.txt" |}
       ∉ findIndex (server0 docsIndex) "-notes").
Proof.
  assert (Ht : isToken "notes") by (split; [discriminate | reflexivity]).
  split; [exact Ht|]. split; [reflexivity|].
  refine (proj1 (search_dash_is_the_complement (server0 docsIndex) "notes"
                   _ Ht eq_refl _)).
  simpl. right. left.
Defined.

(** ** Search: letter case *)

Lemma isSpace_toLowerChar c : isSpace (toLowerChar c) = isSpace c.
Proof. destruct c as [[] [] [] [] [] [] [] []]; reflexivity. Qed.

Lemma toLowerChar_idempotent c : toLowerChar (toLowerChar c) = toLowerChar c.
Proof. destruct c as [[] [] [] [] [] [] [] []]; reflexivity. Qed.

Lemma toLowerChar_dash c :
  Ascii.eqb (toLowerChar c) "-" = Ascii.eqb c "-".
Proof. destruct c as [[] [] [] [] [] [] [] []]; reflexivity. Qed.

Lemma ToLower_idempotent s : ToLower (ToLower s) = ToLower s.
Proof.
  induction s as [|c s IH]; simpl; [done|].
  by rewrite toLowerChar_idempotent, IH.
Qed.

Lemma ToLower_app a b : ToLower (a +:+ b) = ToLower a +:+ ToLower b.
Proof. induction a as [|c a IH]; simpl; [done | by rewrite IH]. Qed.

Lemma HasPrefix_dash_head c s :
  HasPrefix (String c s) "-" = Ascii.eqb c "-".
Proof.
  destruct c as [[] [] [] [] [] [] [] []], s; reflexivity.
Qed.

Lemma HasPrefix_dash_ToLower s :
  HasPrefix (ToLower s) "-" = HasPrefix s "-".
Proof.
  destruct s as [|c s]; [done|].
  change (ToLower (String c s)) with (String (toLowerChar c) (ToLower s)).
  by rewrite !HasPrefix_dash_head, toLowerChar_dash.
Qed.

Lemma ToLower_empty s : ToLower s = "" ↔ s = "".
Proof. by destruct s. Qed.

Lemma Fields_ToLower s : Fields (ToLower s) = map ToLower (Fields s).
Proof.
  induction s as [|c s IH]; [done|].
  change (ToLower (String c s)) with (String (toLowerChar c) (ToLower s)).
  rewrite !Fields_cons, isSpace_toLowerChar, IH.
  destruct (isSpace c); [done|].
  destruct s as [|d s']; [done|].
  change (ToLower (String d s')) with (String (toLowerChar d) (ToLower s')).
  cbv match. rewrite isSpace_toLowerChar.
  destruct (isSpace d); [done|].
  by destruct (Fields (String d s')).
Qed.

Lemma decide_ToLower_empty {B} (s : string) (a b : B) :
  (if decide (ToLower s = "") then a else b)
  = (if decide (s = "") then a else b).
Proof. by destruct s. Qed.

Lemma tokenSucceeds_ToLower path token :
  tokenSucceeds path (ToLower token) = tokenSucceeds path token.
Proof.
  unfold tokenSucceeds, containsFold.
  rewrite HasPrefix_dash_ToLower, ToLower_idempotent.
  assert (Hdrop : dropFirst (ToLower token) = ToLower (dropFirst token))
    by (by destruct token).
  by rewrite Hdrop, ToLower_idempotent, !decide_ToLower_empty.
Qed.

(** X11.  The letter case of a query does not matter: two queries that
    differ in case only find the same entries. *)
Theorem search_ignores_case_of_query
    (s : HTTPStaticServer) (q1 q2 : string) :
  ToLower q1 = ToLower q2 → findIndex s q1 = findIndex s q2.
Proof.
  assert (Htok : ∀ path tokens,
            forallb (tokenSucceeds path) (map ToLower tokens)
            = forallb (tokenSucceeds path) tokens).
  { intros path tokens. induction tokens as [|t ts IHt]; simpl; [done|].
    by rewrite tokenSucceeds_ToLower, IHt. }
  assert (Hlow : ∀ q, findIndex s (ToLower q) = findIndex s q).
  { intros q. rewrite !findIndex_filter, Fields_ToLower.
    induction (indexes s) as [|item items IH]; simpl; [done|].
    by rewrite IH, Htok. }
  intros Heq. by rewrite <- (Hlow q1), <- (Hlow q2), Heq.
Qed.

Lemma search_ignores_case_witness :
  ToLower "Docs -NOTES" = ToLower "docs -notes"
  ∧ findIndex (server0 docsIndex) "Docs -NOTES"
    = findIndex (server0 docsIndex) "docs -notes".
Proof.
  split; [reflexivity|].
  exact (search_ignores_case_of_query (server0 docsIndex)
           "Docs -NOTES" "docs -notes" eq_refl).
Defined.

(** ** Search: an entry and its own path *)

Lemma HasPrefix_app a b : HasPrefix (a +:+ b) a = true.
Proof.
  unfold HasPrefix. induction a as [|c a IH]; [by destruct b|].
  change (String c a +:+ b) with (String c (a +:+ b)).
  cbn [String.prefix].
  destruct (Ascii.ascii_dec c c); [exact IH | done].
Qed.

Lemma Contains_body s substr :
  Contains s substr
  = HasPrefix s substr ||
    match s with
    | EmptyString => false
    | String _ s' => Contains s' substr
    end.
Proof. by destruct s. Qed.

Lemma Contains_app pre token post :
  Contains (pre +:+ token +:+ post) token = true.
Proof.
  induction pre as [|c pre IH].
  - change ("" +:+ token +:+ post) with (token +:+ post).
    by rewrite Contains_body, HasPrefix_app.
  - change (String c pre +:+ token +:+ post)
      with (String c (pre +:+ token +:+ post)).
    rewrite Contains_body, IH. apply orb_true_r.
Qed.

(** Every field of a text is a piece of it, and a text that starts with a
    character other than white space starts with its first field. *)
Lemma Fields_pieces s :
  (∀ token, token ∈ Fields s → ∃ pre post, s = pre +:+ token +:+ post)
  ∧ (∀ c s', s = String c s' → isSpace c = false →
       ∃ h t post, Fields s = h :: t ∧ s = h +:+ post).
Proof.
  induction s as [|c s [IHin IHhead]].
  - split; [intros token Hin; inversion Hin | done].
  - rewrite Fields_cons. destruct (isSpace c) eqn:Hc.
    { split; [|intros ? ? [= <- <-]; congruence].
      intros token Hin. destruct (IHin token Hin) as (pre & post & ->).
      by exists (String c pre), post. }
    destruct s as [|d s'].
    { split.
      - intros token ->%list_elem_of_singleton. by exists "", "".
      - intros ? ? _ _. by exists (String c ""), [], "". }
    destruct (isSpace d) eqn:Hd.
    { split.
      - intros token [->|Hin]%elem_of_cons.
        + by exists "", (String d s').
        + destruct (IHin token Hin) as (pre & post & ->).
          by exists (String c pre), post.
      - intros ? ? _ _. by exists (String c ""), (Fields (String d s')),
          (String d s'). }
    destruct (IHhead d s' eq_refl Hd) as (h & t & post & Hf & Hs).
    rewrite Hf. split.
    + intros token [->|Hin]%elem_of_cons.
      * exists "", post. by rewrite Hs.
      * destruct (IHin token) as (pre & post' & Hp);
          [rewrite Hf; by right|].
        rewrite Hp. by exists (String c pre), post'.
    + intros ? ? _ _. exists (String c h), t, post. by rewrite Hs.
Qed.

(** X12.  An entry is found by its own path: when none of the words of the
    path starts with a dash, the query made of the path finds the entry. *)
Theorem search_finds_entry_by_its_path
    (s : HTTPStaticServer) (item : IndexFileItem) :
  item ∈ indexes s →
  (∀ token, token ∈ Fields (Path item) → HasPrefix token "-" = false) →
  item ∈ findIndex s (Path item).
Proof.
  intros Hin Hdash. rewrite findIndex_filter.
  apply list_elem_of_In, filter_In. split; [by apply list_elem_of_In|].
  apply forallb_forall. intros token Htok%list_elem_of_In.
  unfold tokenSucceeds, containsFold. rewrite (Hdash token Htok).
  case_decide; [done|].
  destruct (proj1 (Fields_pieces (Path item)) token Htok)
    as (pre & post & ->).
  rewrite !ToLower_app. apply Contains_app.
Qed.

Lemma search_finds_entry_witness :
  (∀ token, token ∈ Fields "docs/notes.txt" → HasPrefix token "-" = false)
  ∧ {| Path := "docs/notes.txt"; Info := plainFile "notes.txt" |}
      ∈ findIndex (server0 docsIndex) "docs/notes.txt".
Proof.
  assert (Hd : ∀ token, token ∈ Fields "docs/notes.txt" →
                        HasPrefix token "-" = false).
  { intros token Hin. simpl in Hin.
    by apply list_elem_of_singleton in Hin as ->. }
  split; [exact Hd|].
  refine (search_finds_entry_by_its_path (server0 docsIndex)
            {| Path := "docs/notes.txt"; Info := plainFile "notes.txt" |}
            _ Hd).
  simpl. right. left.
Defined.

(** ** The build and the tree *)

Lemma makeIndex_snapshot skipDirIsNil s root :
  indexes (makeIndex skipDirIsNil s root).1.1
  = match root with
    | inl _ => []
    | inr node => filesUnder [] (rootName s) node
    end.
Proof.
  unfold makeIndex, Walk. destruct root as [err|node].
  - by destruct skipDirIsNil.
  - destruct (walk_makeIndexFn node [] (rootName s) [] []) as [log' ->].
    by destruct (walkResult node) as [[|]|], skipDirIsNil.
Qed.

(** X13.  A build installs what it found, whatever the error: the new
    snapshot does not depend on the old one, the other fields of the server
    are kept, and a build that cannot open its root leaves an empty
    snapshot, so that every query then finds nothing. *)
Theorem build_replaces_snapshot_even_on_failure
    (skipDirIsNil : bool) (s : HTTPStaticServer) (root : OsError + FsNode) :
  let s' := (makeIndex skipDirIsNil s root).1.1 in
  (Root s' = Root s ∧ s_Upload s' = s_Upload s ∧ s_Delete s' = s_Delete s)
  ∧ (∀ old,
       indexes (makeIndex skipDirIsNil
                  {| Root := Root s; s_Upload := s_Upload s;
                     s_Delete := s_Delete s; indexes := old |} root).1.1
       = indexes s')
  ∧ (rootUnopenable root →
     indexes s' = [] ∧ ∀ text, findIndex s' text = []).
Proof.
  cbv zeta. pose proof (makeIndex_snapshot skipDirIsNil s root) as Hidx.
  repeat apply conj.
  - unfold makeIndex. by destruct (Walk _ _ _ _ _) as [[? ?] ?].
  - unfold makeIndex. by destruct (Walk _ _ _ _ _) as [[? ?] ?].
  - unfold makeIndex. by destruct (Walk _ _ _ _ _) as [[? ?] ?].
  - intros old. unfold makeIndex, rootName. simpl.
    by destruct (Walk _ _ _ _ _) as [[? ?] ?].
  - intros Hroot.
    assert (Hempty : indexes (makeIndex skipDirIsNil s root).1.1 = []).
    { rewrite Hidx. by destruct root as [?|[|? [|]]]. }
    split; [exact Hempty|]. intros text.
    by rewrite findIndex_filter, Hempty.
Qed.

Lemma build_replaces_snapshot_witness :
  rootUnopenable (inl EACCES)
  ∧ findIndex (makeIndex true (server0 docsIndex) (inl EACCES)).1.1 "docs"
    = [].
Proof.
  split; [exact I|].
  exact (proj2 (proj2 (proj2 (build_replaces_snapshot_even_on_failure true
                  (server0 docsIndex) (inl EACCES))) I) "docs").
Defined.

Lemma lookupName_elem name names entry :
  lookupName name names = entry → entry ≠ inl ENOENT → (name, entry) ∈ names.
Proof.
  induction names as [|[n e] names IH]; simpl; [congruence|].
  destruct (decide (n = name)) as [->|Hne].
  - intros -> _. left.
  - intros Hl Hne'. right. by apply IH.
Qed.

Lemma lookupName_NoDup name names entry :
  NoDup (map fst names) → (name, entry) ∈ names →
  lookupName name names = entry.
Proof.
  induction names as [|[n e] names IH]; simpl; intros Hnd Hin;
    [inversion Hin|].
  apply NoDup_cons in Hnd as [Hnotin Hnd].
  apply elem_of_cons in Hin as [[= -> ->]|Hin].
  - by rewrite decide_True.
  - destruct (decide (n = name)) as [->|Hne]; [|by apply IH].
    exfalso. apply Hnotin. apply list_elem_of_fmap. by exists (name, entry).
Qed.

Lemma filesUnder_elem_dir path name st names item :
  item ∈ filesUnder path name (FsDir st (inr names)) ↔
  ∃ n child, (n, inr child) ∈ names
             ∧ item ∈ filesUnder (path ++ [n]) n child.
Proof.
  rewrite filesUnder_dir. split.
  - intros Hin. apply list_elem_of_In, in_concat in Hin as (l & Hl & Hitem).
    apply list_elem_of_In in Hl, Hitem.
    apply list_elem_of_fmap in Hl as ([n [err|child]] & -> & Hne);
      simpl in Hitem; [inversion Hitem|]. by exists n, child.
  - intros (n & child & Hne & Hitem). apply list_elem_of_In, in_concat.
    exists (filesUnder (path ++ [n]) n child).
    split; [|by apply list_elem_of_In].
    apply list_elem_of_In, list_elem_of_fmap. by exists (n, inr child).
Qed.

(** Every file that a look-up reaches is among the files of the walk. *)
Lemma fsLookup_indexed comps :
  ∀ node path name st content,
    fsLookup node comps = inr (FsFile st content) →
    ∃ item, item ∈ filesUnder path name node
            ∧ Path item = relToRoot (path ++ comps)
            ∧ fi_IsDir (Info item) = false
            ∧ fi_Size (Info item) = st_size st
            ∧ fi_ModTime (Info item) = st_mtime st.
Proof.
  induction comps as [|c comps IH]; intros node path name st content Hl.
  - simpl in Hl. injection Hl as ->. eexists. split; [by left|].
    by rewrite app_nil_r.
  - simpl in Hl. destruct node as [|st' [err|names]]; [done|done|].
    destruct (lookupName c names) as [err|child] eqn:Hname; [done|].
    destruct (IH child (path ++ [c]) c st content Hl)
      as (item & Hin & Hp & Hinfo).
    exists item. split.
    + apply filesUnder_elem_dir. exists c, child. split; [|done].
      by apply (lookupName_elem c names (inr child)).
    + by rewrite Hp, <- app_assoc.
Qed.

Lemma distinctNames_child st names n child :
  distinctNames (FsDir st (inr names)) → (n, inr child) ∈ names →
  distinctNames child.
Proof.
  intros [_ Heach]. induction names as [|[n' [err|c]] names IH];
    intros Hin; [inversion Hin|..].
  - apply elem_of_cons in Hin as [[=]|Hin]. by apply IH.
  - destruct Heach as [Hc Heach].
    apply elem_of_cons in Hin as [[= -> ->]|Hin]; [done | by apply IH].
Qed.

(** With distinct names, every file of the walk is reached by a look-up. *)
Lemma filesUnder_lookup node :
  ∀ path name item,
    distinctNames node →
    item ∈ filesUnder path name node →
    ∃ comps st content,
      Path item = relToRoot (path ++ comps)
      ∧ fsLookup node comps = inr (FsFile st content).
Proof.
  induction node as [st content|st err|st names IH] using FsNode_tree_ind;
    intros path name item Hdist Hin.
  - apply list_elem_of_singleton in Hin as ->.
    exists [], st, content. by rewrite app_nil_r.
  - inversion Hin.
  - apply filesUnder_elem_dir in Hin as (n & child & Hne & Hin).
    rewrite Forall_forall in IH.
    pose proof (IH (n, inr child) Hne) as IHchild. simpl in IHchild.
    destruct (IHchild (path ++ [n]) n item) as (comps & st' & content & Hp & Hl);
      [by eapply distinctNames_child | done |].
    exists (n :: comps), st', content. split.
    + by rewrite Hp, <- app_assoc.
    + simpl. destruct Hdist as [Hnd _].
      by rewrite (lookupName_NoDup n names (inr child)).
Qed.

(** X14.  The snapshot and the tree walked agree, path by path.  After a
    build, every file reached from the root by names, through directories
    that can be read, has an entry under its relative path, with its size
    and time and never marked as a directory; and when no directory lists a
    name twice, every entry of the snapshot is the relative path of such a
    file. *)
Theorem snapshot_agrees_with_tree
    (skipDirIsNil : bool) (s : HTTPStaticServer) (node : FsNode) :
  let s' := (makeIndex skipDirIsNil s (inr node)).1.1 in
  (∀ comps st content,
     fsLookup node comps = inr (FsFile st content) →
     ∃ item, item ∈ indexes s'
             ∧ Path item = relToRoot comps
             ∧ fi_IsDir (Info item) = false
             ∧ fi_Size (Info item) = st_size st
             ∧ fi_ModTime (Info item) = st_mtime st)
  ∧ (distinctNames node →
     ∀ item, item ∈ indexes s' →
       ∃ comps st content,
         Path item = relToRoot comps
         ∧ fsLookup node comps = inr (FsFile st content)).
Proof.
  cbv zeta. rewrite makeIndex_snapshot. split.
  - intros comps st content Hl.
    apply (fsLookup_indexed comps node [] (rootName s) st content Hl).
  - intros Hdist item Hin.
    apply (filesUnder_lookup node [] (rootName s) item Hdist Hin).
Qed.

Lemma snapshot_agrees_witness :
  fsLookup foldTree ["a"; "b"; "c"; "file.txt"] = inr (file emptyDoc)
  ∧ ∃ item,
      item ∈ indexes (makeIndex true (server0 []) (inr foldTree)).1.1
      ∧ Path item = "a/b/c/file.txt".
Proof.
  split; [reflexivity|].
  destruct (proj1 (snapshot_agrees_with_tree true (server0 []) foldTree)
              ["a"; "b"; "c"; "file.txt"] _ _ eq_refl)
    as (item & Hin & Hp & _).
  exists item. split; [exact Hin | exact Hp].
Defined.

(** ** Folding: where it stops *)

Lemma deepPathLoop_step fs basedir depth name :
  deepPathLoop fs basedir depth true name
  = if decide (depth <= maxDepth) then
      match singleDirChild fs (fsJoin basedir name) with
      | Some child =>
          deepPathLoop fs basedir (depth + 1) true (ToSlash (Join name child))
      | None => name
      end
    else name.
Proof.
  rewrite deepPathLoop_body. unfold singleDirChild.
  destruct (decide (depth <= maxDepth)) as [Hd|Hd].
  - rewrite decide_True by done.
    destruct (fsReadDir fs (fsJoin basedir name)) as [err|[|finfo [|? ?]]];
      try done.
    by destruct (fi_IsDir finfo).
  - rewrite decide_False; [done | by intros [? _]].
Qed.

Lemma deepPathLoop_exact fs basedir (n : nat) :
  ∀ depth name,
    Z.to_nat (maxDepth + 1 - depth) = n →
    ∃ children,
      deepPathLoop fs basedir depth true name = extendName name children
      ∧ (length children ≤ n)%nat
      ∧ (∀ i child,
           children !! i = Some child →
           singleDirChild fs
             (fsJoin basedir (extendName name (take i children)))
           = Some child)
      ∧ ((length children < n)%nat →
         singleDirChild fs (fsJoin basedir (extendName name children)) = None).
Proof.
  induction n as [|n IH]; intros depth name Hn; rewrite deepPathLoop_step.
  - rewrite decide_False by (unfold maxDepth in *; lia).
    exists []. repeat split; [simpl; lia | done | simpl; lia].
  - rewrite decide_True by (unfold maxDepth in *; lia).
    destruct (singleDirChild fs (fsJoin basedir name)) as [child|] eqn:Hc.
    + destruct (IH (depth + 1) (ToSlash (Join name child)))
        as (children & Hloop & Hlen & Hchildren & Hstop); [lia|].
      exists (child :: children). repeat split.
      * exact Hloop.
      * simpl. lia.
      * intros [|i] c Hi; simpl in Hi; [by injection Hi as <-|].
        apply (Hchildren i c Hi).
      * simpl. intros Hlt. apply Hstop. lia.
    + exists []. repeat split; [simpl; lia | done | done].
Qed.

(** X15.  Where folding stops: [deepPath] extends the name by the chain of
    directories that are each the only entry of the one before, and the
    chain is as long as it can be up to six: it ends before six only at a
    directory that cannot be read, is empty, has several entries, or whose
    only entry is a file.  A directory that is no such link keeps its
    name. *)
Theorem deepPath_follows_the_longest_chain
    (fs : FileSystem) (basedir : CleanPath) (name : string) :
  (∃ children,
     deepPath fs basedir name = extendName name children
     ∧ (length children ≤ 6)%nat
     ∧ (∀ i child,
          children !! i = Some child →
          singleDirChild fs
            (fsJoin basedir (extendName name (take i children)))
          = Some child)
     ∧ ((length children < 6)%nat →
        singleDirChild fs (fsJoin basedir (deepPath fs basedir name)) = None))
  ∧ (singleDirChild fs (fsJoin basedir name) = None →
     deepPath fs basedir name = name).
Proof.
  split.
  - destruct (deepPathLoop_exact fs basedir 6 0 name eq_refl)
      as (children & Hloop & Hlen & Hchildren & Hstop).
    exists children. unfold deepPath. rewrite Hloop. done.
  - intros Hnone. unfold deepPath. rewrite deepPathLoop_step, Hnone.
    by rewrite decide_True by (unfold maxDepth; lia).
Qed.

Lemma deepPath_chain_witness :
  singleDirChild (fsOfTree foldTree) (fsJoin ["a"; "b"; "c"] "file.txt")
  = None
  ∧ deepPath (fsOfTree foldTree) ["a"; "b"; "c"] "file.txt" = "file.txt".
Proof.
  split; [reflexivity|].
  exact (proj2 (deepPath_follows_the_longest_chain (fsOfTree foldTree)
                  ["a"; "b"; "c"] "file.txt") eq_refl).
Defined.

(** ** The listing of a directory *)

Section DirListing.
Context `{RegexpEngine}.

Lemma dirFileInfoMap_lookup requestPath infos :
  ∀ (m : gmap string FileInfo) path info,
    fold_left (λ (fileInfoMap : gmap string FileInfo) info,
                 <[Join requestPath (fi_Name info) := info]> fileInfoMap)
              infos m !! path = Some info →
    m !! path = Some info
    ∨ (info ∈ infos ∧ path = Join requestPath (fi_Name info)).
Proof.
  induction infos as [|i infos IH]; intros m path info; simpl; [auto|].
  intros Hl. destruct (IH _ _ _ Hl) as [Hm|[Hin ->]].
  - rewrite lookup_insert in Hm. case_decide; [|auto].
    simplify_eq. right. split; [left | done].
  - right. split; [by right | done].
Qed.

Lemma dirFileInfoMap_keep requestPath infos :
  ∀ (m : gmap string FileInfo) path,
    (∀ info, info ∈ infos → Join requestPath (fi_Name info) ≠ path) →
    fold_left (λ (fileInfoMap : gmap string FileInfo) info,
                 <[Join requestPath (fi_Name info) := info]> fileInfoMap)
              infos m !! path = m !! path.
Proof.
  induction infos as [|i infos IH]; intros m path Hno; simpl; [done|].
  rewrite IH by (intros info Hin; apply Hno; by right).
  apply lookup_insert_ne, Hno. left.
Qed.

Lemma dirFileInfoMap_stored requestPath infos :
  ∀ (m : gmap string FileInfo) info,
    NoDup (map (λ info, Join requestPath (fi_Name info)) infos) →
    info ∈ infos →
    fold_left (λ (fileInfoMap : gmap string FileInfo) info,
                 <[Join requestPath (fi_Name info) := info]> fileInfoMap)
              infos m !! Join requestPath (fi_Name info) = Some info.
Proof.
  induction infos as [|i infos IH]; intros m info Hnd Hin; [inversion Hin|].
  simpl in Hnd. apply NoDup_cons in Hnd as [Hnotin Hnd].
  apply elem_of_cons in Hin as [->|Hin]; simpl; [|by apply IH].
  rewrite dirFileInfoMap_keep; [by rewrite lookup_insert_eq|].
  intros info Hin Heq. apply Hnotin. rewrite <- Heq.
  apply list_elem_of_fmap. by exists info.
Qed.

Lemma dirFileInfoMap_size requestPath infos :
  ∀ m : gmap string FileInfo,
    (size (fold_left (λ (fileInfoMap : gmap string FileInfo) info,
                        <[Join requestPath (fi_Name info) := info]> fileInfoMap)
                     infos m)
     ≤ size m + length infos)%nat.
Proof.
  induction infos as [|i infos IH]; intros m; simpl; [lia|].
  etrans; [apply IH|]. rewrite map_size_insert.
  destruct (m !! _); simpl; lia.
Qed.

(** The listing without a query, as a function of the entries read. *)
Lemma hJSONList_dir s fs requestPath r rc :
  cacheInv rc →
  match fsReadDir fs (underRoot requestPath) with
  | inl err =>
      (hJSONList s fs requestPath "" r rc).1
      = (ListError {| status := 500; body := errorText err |}, rc)
  | inr infos =>
      ∃ auth,
        (hJSONList s fs requestPath "" r rc).1.1
        = ListOK
            (map (λ pi, (fileEntry fs (underRoot requestPath) requestPath ""
                           pi.1 pi.2).1)
                 (List.filter
                    (λ pi, firstMatch (AccessTables auth) (fi_Name pi.2))
                    (map_to_list (dirFileInfoMap requestPath infos))))
            auth
        ∧ AccessTables auth
          = AccessTables (readAccessConf s fs requestPath).1
  end.
Proof.
  intros Hinv. unfold hJSONList.
  destruct (readAccessConf s fs requestPath) as [auth0 log0].
  rewrite decide_False by (by intros Hne).
  destruct (fsReadDir fs (underRoot requestPath)) as [err|infos]; [done|].
  set (auth := {| Upload := _; Delete := canDelete _ r |}).
  exists auth. split; [|done].
  pose proof (listLoop_spec fs auth (underRoot requestPath) requestPath
                "" (map_to_list (dirFileInfoMap requestPath infos))
                [] rc log0 Hinv) as Hloop.
  destruct (listLoop _ _ _ _ _ _ _ _ _) as [[lrs rc'] log'].
  simpl in Hloop. by subst lrs.
Qed.
End DirListing.

(** X16.  Listing a directory.  When the directory cannot be read the
    answer is 500 and the pattern cache is left as it was.  Otherwise the
    listing has at most one entry per entry of the directory, every entry
    listed stands for an entry of the directory whose name passes the rules
    of the resolved policy (a name the rules deny is never shown), and when
    the names give distinct paths every entry that passes is shown.  A
    directory is shown with type [dir] and size -1, a file with type [file],
    its own name and its size. *)
Theorem listing_shows_the_allowed_entries
    (E : RegexpEngine) (calls : list (AccessConf * string))
    (s : HTTPStaticServer) (fs : FileSystem) (requestPath : string)
    (r : Request) :
  let rc := (canAccessCalls calls reCache0).2 in
  let tables := AccessTables (readAccessConf s fs requestPath).1 in
  let entry info :=
    (fileEntry fs (underRoot requestPath) requestPath ""
       (Join requestPath (fi_Name info)) info).1 in
  match fsReadDir fs (underRoot requestPath) with
  | inl err =>
      (hJSONList s fs requestPath "" r rc).1
      = (ListError {| status := 500; body := errorText err |}, rc)
  | inr infos =>
      ∃ files auth,
        (hJSONList s fs requestPath "" r rc).1.1 = ListOK files auth
        ∧ (length files ≤ length infos)%nat
        ∧ (∀ lr, lr ∈ files →
             ∃ info, info ∈ infos
                     ∧ firstMatch tables (fi_Name info) = true
                     ∧ lr = entry info)
        ∧ (NoDup (map (λ info, Join requestPath (fi_Name info)) infos) →
           ∀ info, info ∈ infos → firstMatch tables (fi_Name info) = true →
                   entry info ∈ files)
        ∧ (∀ info,
             (fi_IsDir info = true →
              h_Type (entry info) = "dir" ∧ h_Size (entry info) = -1)
             ∧ (fi_IsDir info = false →
                h_Type (entry info) = "file"
                ∧ h_Size (entry info) = fi_Size info
                ∧ h_Name (entry info) = fi_Name info
                ∧ h_Path (entry info) = Join requestPath (fi_Name info)))
  end.
Proof.
  intros rc tables entry.
  assert (Hinv : cacheInv rc)
    by apply canAccessCalls_inv, cacheInv_reCache0.
  pose proof (hJSONList_dir s fs requestPath r rc Hinv) as Hdir.
  destruct (fsReadDir fs (underRoot requestPath)) as [err|infos]; [done|].
  destruct Hdir as (auth & Hlist & Htables).
  eexists _, auth. split; [exact Hlist|]. rewrite Htables. fold tables.
  repeat apply conj.
  - rewrite length_map. etrans; [apply filter_length_le|].
    rewrite length_map_to_list. etrans; [apply dirFileInfoMap_size|].
    rewrite map_size_empty. lia.
  - intros lr Hlr. apply list_elem_of_fmap in Hlr as ([path info] & -> & Hin).
    apply list_elem_of_In, filter_In in Hin as [Hin Hok].
    apply list_elem_of_In, elem_of_map_to_list in Hin.
    apply dirFileInfoMap_lookup in Hin as [Hin|[Hin ->]];
      [by rewrite lookup_empty in Hin|].
    by exists info.
  - intros Hnd info Hin Hok.
    apply (list_elem_of_fmap_2
             (λ pi, (fileEntry fs (underRoot requestPath) requestPath ""
                       pi.1 pi.2).1) _ (Join requestPath (fi_Name info), info)).
    apply list_elem_of_In, filter_In. split; [|exact Hok].
    apply list_elem_of_In, elem_of_map_to_list.
    by apply dirFileInfoMap_stored.
  - intros info. subst entry. unfold fileEntry. simpl.
    split; intros ->; done.
Qed.

Lemma listing_allowed_entries_witness :
  ∃ files auth,
    (hJSONList (H := MiniRE.engine) (server0 []) (fsOfTree foldTree) "a/b/c" ""
       NoUser (canAccessCalls [] reCache0).2).1.1 = ListOK files auth
    ∧ {| h_Name := "file.txt"; h_Path := "a/b/c/file.txt"; h_Type := "file";
         h_Size := 1; h_ModTime := 0 |} ∈ files.
Proof.
  pose proof (listing_shows_the_allowed_entries MiniRE.engine [] (server0 [])
                (fsOfTree foldTree) "a/b/c" NoUser) as Hl.
  cbv zeta in Hl.
  change (fsReadDir (fsOfTree foldTree) (underRoot "a/b/c"))
    with (@inr OsError _ [nodeInfo "file.txt" (file emptyDoc)]) in Hl.
  destruct Hl as (files & auth & Hlist & _ & _ & Hshown & _).
  exists files, auth. split; [exact Hlist|].
  refine (Hshown _ (nodeInfo "file.txt" (file emptyDoc)) _ _).
  - simpl. apply NoDup_singleton.
  - left.
  - reflexivity.
Defined.

(** ** The pattern cache: what it can hold *)

Section CacheContents.
Context `{RegexpEngine}.

Lemma canAccessLoop_compiled tables fileName :
  ∀ rc regex,
    regex ∈ compiled (canAccessLoop tables fileName rc).2 →
    regex ∈ compiled rc ∨ ∃ table, table ∈ tables ∧ Regex table = regex.
Proof.
  induction tables as [|table tables IH]; intros rc regex; simpl; [auto|].
  assert (Hstep : ∀ x, x ∈ compiled (cachedPattern (Regex table) rc).2 →
                       x ∈ compiled rc ∨ x = Regex table).
  { intros x. unfold cachedPattern.
    destruct (reCache rc !! Regex table); simpl; [auto|].
    rewrite elem_of_app, list_elem_of_singleton. tauto. }
  assert (Hhere : ∀ x, x ∈ compiled rc ∨ x = Regex table →
            x ∈ compiled rc ∨ ∃ t, t ∈ table :: tables ∧ Regex t = x).
  { intros x [?| ->]; [by left|]. right. exists table. split; [left | done]. }
  assert (Hrest : regex ∈ compiled
            (canAccessLoop tables fileName (cachedPattern (Regex table) rc).2).2 →
            regex ∈ compiled rc
            ∨ ∃ t, t ∈ table :: tables ∧ Regex t = regex).
  { intros Hin. destruct (IH _ _ Hin) as [Hc|(t & Ht & Hr)].
    - by apply Hhere, Hstep.
    - right. exists t. split; [by right | done]. }
  destruct (cachedPattern (Regex table) rc) as [[re|] rc']; simpl in *;
    [|exact Hrest].
  destruct (MatchString re fileName); simpl; [|exact Hrest].
  intros Hin. by apply Hhere, Hstep.
Qed.

Lemma canAccessCalls_compiled calls :
  ∀ rc regex,
    regex ∈ compiled (canAccessCalls calls rc).2 →
    regex ∈ compiled rc
    ∨ ∃ c fileName table,
        (c, fileName) ∈ calls ∧ table ∈ AccessTables c
        ∧ Regex table = regex.
Proof.
  induction calls as [|[c fileName] calls IH]; intros rc regex; simpl; [auto|].
  unfold canAccess.
  pose proof (canAccessLoop_compiled (AccessTables c) fileName rc regex)
    as Hloop.
  destruct (canAccessLoop (AccessTables c) fileName rc) as [res rc'].
  simpl in Hloop.
  pose proof (IH rc' regex) as Hcalls.
  destruct (canAccessCalls calls rc') as [rs rc'']. simpl in *.
  intros Hin. destruct (Hcalls Hin) as [Hc|(c' & f & t & Hcf & Ht & Hr)].
  - destruct (Hloop Hc) as [?|(t & Ht & Hr)]; [by left|].
    right. exists c, fileName, t. split; [left | done].
  - right. exists c', f, t. split; [by right | done].
Qed.
End CacheContents.

(** X17.  The pattern cache holds nothing but the patterns of rules that
    were evaluated: after any run of calls, the cache has one entry for each
    pattern compiled, and each of them is the pattern of a rule of a policy
    that some call was made with. *)
Theorem cache_holds_only_patterns_of_rules
    (E : RegexpEngine) (calls : list (AccessConf * string)) :
  let rc := (canAccessCalls calls reCache0).2 in
  size (reCache rc) = length (compiled rc)
  ∧ (∀ regex,
       is_Some (reCache rc !! regex) →
       ∃ c fileName table,
         (c, fileName) ∈ calls ∧ table ∈ AccessTables c
         ∧ Regex table = regex).
Proof.
  intros rc.
  destruct (canAccessCalls_inv calls reCache0 cacheInv_reCache0)
    as [(Hval & Hdom & Hnd) _]. fold rc in Hval, Hdom, Hnd.
  split.
  - rewrite <- size_dom, <- (size_list_to_set (C := gset string)) by done.
    f_equal. apply set_eq. intros regex.
    by rewrite elem_of_dom, elem_of_list_to_set, Hdom.
  - intros regex Hsome. apply Hdom in Hsome.
    destruct (canAccessCalls_compiled calls reCache0 regex Hsome)
      as [Hin|Hrule]; [inversion Hin | exact Hrule].
Qed.

Lemma cache_holds_witness :
  is_Some (reCache (H := MiniRE.engine)
             (canAccessCalls [(secretRules, "x.txt")] reCache0).2 !! ".*")
  ∧ ∃ c fileName table,
      (c, fileName) ∈ [(secretRules, "x.txt")]
      ∧ table ∈ AccessTables c ∧ Regex table = ".*".
Proof.
  assert (Hs : is_Some (reCache (H := MiniRE.engine)
                 (canAccessCalls [(secretRules, "x.txt")] reCache0).2 !! ".*"))
    by (vm_compute; eauto).
  split; [exact Hs|].
  exact (proj2 (cache_holds_only_patterns_of_rules MiniRE.engine
                  [(secretRules, "x.txt")]) ".*" Hs).
Defined.

(** ** Resolution: what is logged *)

Lemma readSidecar_log_lines fs p ac :
  ∀ line, line ∈ (readSidecar fs p ac []).2 →
    (∃ data e, fsReadFile fs (cfgFileOf fs p) = (data, Some e)
               ∧ IsNotExist e = false
               ∧ line = LogErrRead (cfgFileOf fs p) e)
    ∨ (∃ data, sidecarData fs p = Some data
               ∧ (Unmarshal data ac).2 = true
               ∧ line = LogErrFormat (cfgFileOf fs p)).
Proof.
  intros line. unfold readSidecar, sidecarData.
  destruct (fsReadFile fs (cfgFileOf fs p)) as [data [e|]] eqn:Hread.
  - destruct (IsNotExist e) eqn:Hne; simpl; [by intros Hin; inversion Hin|].
    destruct (Unmarshal data ac) as [ac' []] eqn:Hu; simpl.
    + intros [->|Hin]%elem_of_cons.
      * left. by exists data, e.
      * apply list_elem_of_singleton in Hin as ->. right. exists data.
        by rewrite Hu.
    + intros ->%list_elem_of_singleton. left. by exists data, e.
  - destruct (Unmarshal data ac) as [ac' []] eqn:Hu; simpl.
    + intros ->%list_elem_of_singleton. right. exists data. by rewrite Hu.
    + intros Hin. inversion Hin.
Qed.

(** X18.  What resolution logs: every line is about the sidecar of a level
    on the way from the root, which either could not be read (for a reason
    other than not being there) or on which the decoder reported an error;
    so a path whose sidecars are absent or read and decoded without error
    logs nothing.  A malformed sidecar is logged by every resolution that
    passes through its level. *)
Theorem resolution_logs_the_failing_levels
    (s : HTTPStaticServer) (fs : FileSystem) (p : CleanPath) :
  (∀ line, line ∈ (readAccessConfAt s fs p).2 →
     ∃ q, q `prefix_of` p
          ∧ ((∃ data e, fsReadFile fs (cfgFileOf fs q) = (data, Some e)
                        ∧ IsNotExist e = false
                        ∧ line = LogErrRead (cfgFileOf fs q) e)
             ∨ (∃ data ac, sidecarData fs q = Some data
                           ∧ (Unmarshal data ac).2 = true
                           ∧ line = LogErrFormat (cfgFileOf fs q))))
  ∧ (∀ q data, q `prefix_of` p → sidecarMalformed fs q data →
               LogErrFormat (cfgFileOf fs q) ∈ (readAccessConfAt s fs p).2).
Proof.
  split.
  - induction p as [|c p IH] using rev_ind; intros line.
    + rewrite readAccessConfAt_root. intros Hin.
      exists []. split; [done|].
      destruct (readSidecar_log_lines fs [] _ line Hin)
        as [?|(data & ? & ? & ?)]; [by left|]. right. eauto.
    + rewrite readAccessConfAt_snoc.
      destruct (readAccessConfAt s fs p) as [ac log]. simpl in IH.
      rewrite readSidecar_log. intros [Hin|Hin]%elem_of_app.
      * destruct (IH line Hin) as (q & Hq & Hline).
        exists q. split; [by apply prefix_app_r | done].
      * exists (p ++ [c]). split; [done|].
        destruct (readSidecar_log_lines fs (p ++ [c]) _ line Hin)
          as [?|(data & ? & ? & ?)]; [by left|]. right. eauto.
  - intros q data [k ->] [Hread Herr].
    induction k as [|c k IH] using rev_ind.
    + rewrite app_nil_r, readAccessConfAt_level.
      destruct (parentResolved s fs q) as [pac plog].
      rewrite readSidecar_log. apply elem_of_app. right.
      unfold readSidecar. rewrite Hread.
      specialize (Herr pac). destruct (Unmarshal data pac) as [ac' e].
      simpl in Herr. subst e. simpl. left.
    + rewrite app_assoc, readAccessConfAt_snoc.
      destruct (readAccessConfAt s fs (q ++ k)) as [ac log]. simpl in IH.
      rewrite readSidecar_log. apply elem_of_app. by left.
Qed.

Lemma resolution_logs_witness :
  sidecarMalformed (fsOfTree illTypedTree) ["a"]
    (YamlDecoded (Some true) None None None true)
  ∧ LogErrFormat ["a"; ".ghs.yml"]
      ∈ (readAccessConfAt (server0 []) (fsOfTree illTypedTree) ["a"; "b"]).2.
Proof.
  assert (Hm : sidecarMalformed (fsOfTree illTypedTree) ["a"]
                 (YamlDecoded (Some true) None None None true)).
  { split; [reflexivity | intros ac; reflexivity]. }
  split; [exact Hm|].
  refine (proj2 (resolution_logs_the_failing_levels (server0 [])
                   (fsOfTree illTypedTree) ["a"; "b"]) ["a"] _ _ Hm).
  by exists ["b"].
Defined.
